(** * InvisiText: zero-width steganography codec

    A shallow embedding of [invisi_text.py] (the functions
    [_message_to_binary], [_binary_to_message], [encode] and [decode])
    together with the properties of the codec.

    Python values are modelled as follows:
    - a [str] is the list of its Unicode code points ([Z] values in
      [0 .. 0x10FFFF]); a one-character string such as [ZERO_BIT] is
      identified with its code point;
    - a [bytes] object is a list of [Z] values in [0 .. 255];
    - a string over the alphabet ['0'], ['1'] (the only strings that the
      program ever builds for [secret_binary] and [bit_stream]) is a list
      of [bit];
    - [print] is an effect: every function returns the lines it printed
      together with its value. *)

From Stdlib Require Import ZArith List Bool Lia.
Import ListNotations.
Local Open Scope Z_scope.

(** ** Strings, bytes and bit strings *)

Definition char := Z.
Definition str := list char.
Definition byte := Z.
Definition bytes := list byte.

(** The integers of a list are byte values. *)
Abbreviation byte_values := (Forall (fun b : Z => 0 <= b < 256)).

Inductive bit : Set := b0 | b1.

Definition bitstr := list bit.

Definition bit_eqb (x y : bit) : bool :=
  match x, y with
  | b0, b0 | b1, b1 => true
  | _, _ => false
  end.

Definition bit_val (d : bit) : Z :=
  match d with b0 => 0 | b1 => 1 end.

(** Python's truth value of a sequence: [not s] holds when [s] is empty. *)
Definition py_not {A : Type} (s : list A) : bool :=
  match s with [] => true | _ :: _ => false end.

(** [len(s)] as a Python integer. *)
Definition len {A : Type} (s : list A) : Z := Z.of_nat (length s).

(** ** Configuration (lines 24-34) *)

Definition ZERO_BIT : char := 0x200B.
Definition ONE_BIT : char := 0x200C.
Definition EOT_CHAR : char := 0x04.
Definition SPACE : char := 0x20.

(** ** Printed output *)

Inductive channel : Set := stdout | stderr.

(** One constructor per [print] call of the four functions; the numbers
    are the values interpolated in the f-strings. *)
Inductive line : Set :=
| Error_converting_message_to_binary
| Error_converting_binary_to_message
| Carrier_text_cannot_be_empty
| Secret_message_cannot_be_empty
| Could_not_convert_secret_message
| Carrier_text_is_not_long_enough
| Carrier_capacity (capacity_bits : Z)
| Secret_message_size (required_bits : Z)
| Successfully_converted (n : Z)
| Bit_slots_available (n : Z)
| Steganographic_text_cannot_be_empty
| Scanning_text
| No_hidden_message_found
| Found_hidden_stream (n : Z).

Definition channel_of (l : line) : channel :=
  match l with
  | Successfully_converted _ | Bit_slots_available _
  | Scanning_text | Found_hidden_stream _ => stdout
  | _ => stderr
  end.

(** A computation that prints: the lines printed, then the value. *)
Definition io (A : Type) : Type := (list line * A)%type.

Definition ret {A : Type} (a : A) : io A := ([], a).

Definition bind {A B : Type} (m : io A) (k : A -> io B) : io B :=
  let (o1, a) := m in
  let (o2, b) := k a in
  (o1 ++ o2, b).

Definition print (l : line) : io unit := ([l], tt).

Notation "x <- m ;; k" := (bind m (fun x => k))
  (at level 61, m at next level, right associativity).
Notation "m ;;; k" := (bind m (fun _ => k))
  (at level 61, right associativity).

Definition printed {A : Type} (m : io A) : list line := fst m.
Definition value {A : Type} (m : io A) : A := snd m.

(** ** Binary formatting: [format(byte, '08b')] and [int(byte_str, 2)] *)

Fixpoint bin_pos (p : positive) : bitstr :=
  match p with
  | xH => [b1]
  | xO q => bin_pos q ++ [b0]
  | xI q => bin_pos q ++ [b1]
  end.

(** The binary digits of a byte value, most significant first, without
    leading zeros.  A [bytes] object only holds values [0 .. 255], so the
    sign that [format] would print for a negative number never occurs and
    is not modelled. *)
Definition bin (n : Z) : bitstr :=
  match n with
  | Z0 => [b0]
  | Zpos p => bin_pos p
  | Zneg p => bin_pos p
  end.

(** Zero padding to a minimal width (the [08] of the format spec). *)
Definition zero_pad (width : nat) (ds : bitstr) : bitstr :=
  repeat b0 (width - length ds) ++ ds.

Definition format_08b (n : byte) : bitstr := zero_pad 8 (bin n).

(** [int(s, 2)] on a string of binary digits. *)
Definition int2 (s : bitstr) : Z :=
  fold_left (fun acc d => 2 * acc + bit_val d) s 0.

(** ** UTF-8: [str.encode('utf-8')] and [bytes.decode('utf-8', 'ignore')]

    These two are Python built-ins; they are modelled after the codec of
    the interpreter (RFC 3629).  Encoding is strict: a surrogate code point
    raises [UnicodeEncodeError], which is [None] here. *)

Definition utf8_encode_char (c : char) : option bytes :=
  if c <? 0 then None
  else if c <? 0x80 then Some [c]
  else if c <? 0x800 then Some [0xC0 + c / 64; 0x80 + c mod 64]
  else if c <? 0x10000 then
    if (0xD800 <=? c) && (c <=? 0xDFFF) then None
    else Some [0xE0 + c / 4096; 0x80 + (c / 64) mod 64; 0x80 + c mod 64]
  else if c <=? 0x10FFFF then
    Some [0xF0 + c / 262144; 0x80 + (c / 4096) mod 64;
          0x80 + (c / 64) mod 64; 0x80 + c mod 64]
  else None.

Fixpoint utf8_encode (s : str) : option bytes :=
  match s with
  | [] => Some []
  | c :: s' =>
      match utf8_encode_char c, utf8_encode s' with
      | Some bs, Some bs' => Some (bs ++ bs')
      | _, _ => None
      end
  end.

Definition is_continuation (b : byte) : bool := (0x80 <=? b) && (b <? 0xC0).

(** Decoding with the ['ignore'] error handler never raises: the bytes of
    an ill-formed sequence are skipped and decoding resumes after them.
    An invalid start byte skips one byte; an invalid continuation byte
    skips the bytes of the sequence read so far; a sequence cut off by the
    end of the data skips everything that is left. *)
Fixpoint utf8_decode_ignore (bs : bytes) : str :=
  match bs with
  | [] => []
  | c1 :: t1 =>
    if c1 <? 0x80 then c1 :: utf8_decode_ignore t1
    else if c1 <? 0xC2 then utf8_decode_ignore t1
    else if c1 <? 0xE0 then
      match t1 with
      | [] => []
      | c2 :: t2 =>
        if negb (is_continuation c2) then utf8_decode_ignore t1
        else ((c1 - 0xC0) * 64 + (c2 - 0x80)) :: utf8_decode_ignore t2
      end
    else if c1 <? 0xF0 then
      match t1 with
      | [] => []
      | c2 :: t2 =>
        if negb (is_continuation c2)
           || (if c2 <? 0xA0 then c1 =? 0xE0 else c1 =? 0xED)
        then utf8_decode_ignore t1
        else
          match t2 with
          | [] => []
          | c3 :: t3 =>
            if negb (is_continuation c3) then utf8_decode_ignore t2
            else ((c1 - 0xE0) * 4096 + (c2 - 0x80) * 64 + (c3 - 0x80))
                   :: utf8_decode_ignore t3
          end
      end
    else if c1 <? 0xF5 then
      match t1 with
      | [] => []
      | c2 :: t2 =>
        if negb (is_continuation c2)
           || (if c2 <? 0x90 then c1 =? 0xF0 else c1 =? 0xF4)
        then utf8_decode_ignore t1
        else
          match t2 with
          | [] => []
          | c3 :: t3 =>
            if negb (is_continuation c3) then utf8_decode_ignore t2
            else
              match t3 with
              | [] => []
              | c4 :: t4 =>
                if negb (is_continuation c4) then utf8_decode_ignore t3
                else ((c1 - 0xF0) * 262144 + (c2 - 0x80) * 4096
                      + (c3 - 0x80) * 64 + (c4 - 0x80))
                       :: utf8_decode_ignore t4
              end
          end
      end
    else utf8_decode_ignore t1
  end.

(** [bytes(byte_list)] raises [ValueError] unless every integer is in
    [range(0, 256)]. *)
Definition in_byte_range (n : Z) : bool := (0 <=? n) && (n <? 256).

Definition bytes_of_ints (byte_list : list Z) : option bytes :=
  if forallb in_byte_range byte_list then Some byte_list else None.

(** ** [str.split(' ')] and [' '.join(...)] *)

(** Splitting on the single space: every space ends a token, so the result
    always has at least one token and tokens may be empty. *)
Fixpoint split (s : str) : list str :=
  match s with
  | [] => [[]]
  | c :: s' =>
      if c =? SPACE then [] :: split s'
      else match split s' with
           | w :: ws => (c :: w) :: ws
           | [] => [[c]]
           end
  end.

Fixpoint join (ws : list str) : str :=
  match ws with
  | [] => []
  | w :: ws' =>
      match ws' with
      | [] => w
      | _ :: _ => w ++ SPACE :: join ws'
      end
  end.

(** ** Core functions *)

(** [_message_to_binary] (lines 38-57).  The [try] body fails only when
    [message.encode('utf-8')] raises; the handler prints and returns the
    empty string. *)
Definition _message_to_binary (message : str) : io bitstr :=
  match utf8_encode message with
  | Some message_bytes => ret (flat_map format_08b message_bytes)
  | None => print Error_converting_message_to_binary ;;; ret []
  end.

(** [range(0, stop, 8)]. *)
Definition range8 (stop : nat) : list nat :=
  map (fun k => 8 * k)%nat (seq 0 ((stop + 7) / 8)).

(** [s[i:i+8]]. *)
Definition slice8 {A : Type} (s : list A) (i : nat) : list A :=
  firstn 8 (skipn i s).

(** The [for] loop of [_binary_to_message] (lines 72-86): [idxs] are the
    values of [i] still to come, [byte_list] the bytes appended so far; both
    [break]s leave the loop with the current [byte_list]. *)
Fixpoint chunk_loop (binary_stream : bitstr) (idxs : list nat)
    (byte_list : list Z) : list Z :=
  match idxs with
  | [] => byte_list
  | i :: idxs' =>
      let byte_str := slice8 binary_stream i in
      if len byte_str <? 8 then byte_list
      else
        let byte_int := int2 byte_str in
        if byte_int =? EOT_CHAR then byte_list
        else chunk_loop binary_stream idxs' (byte_list ++ [byte_int])
  end.

(** The value of [byte_list] when the loop ends. *)
Definition byte_list_of (binary_stream : bitstr) : list Z :=
  chunk_loop binary_stream (range8 (length binary_stream)) [].

(** The [try] body of [_binary_to_message]; [None] is a raised exception. *)
Definition binary_to_message_body (binary_stream : bitstr) : option str :=
  match bytes_of_ints (byte_list_of binary_stream) with
  | Some bs => Some (utf8_decode_ignore bs)
  | None => None
  end.

(** [_binary_to_message] (lines 59-93). *)
Definition _binary_to_message (binary_stream : bitstr) : io str :=
  match binary_to_message_body binary_stream with
  | Some message => ret message
  | None => print Error_converting_binary_to_message ;;; ret []
  end.

(** ** Main API *)

(** The loop of [encode] (lines 144-151) over [enumerate(carrier_words)],
    from index [i] on; the result is what the iterations append to
    [output_words]. *)
Fixpoint weave_loop (i : nat) (carrier_words : list str)
    (secret_binary : bitstr) : list str :=
  match carrier_words with
  | [] => []
  | word :: rest =>
      match nth_error secret_binary i with
      | Some d =>
          let bit_char := if bit_eqb d b1 then ONE_BIT else ZERO_BIT in
          word :: [bit_char] :: weave_loop (S i) rest secret_binary
      | None => word :: weave_loop (S i) rest secret_binary
      end
  end.

(** [encode] (lines 97-156). *)
Definition encode (carrier_text secret_message : str) : io str :=
  if py_not carrier_text then
    print Carrier_text_cannot_be_empty ;;; ret []
  else if py_not secret_message then
    print Secret_message_cannot_be_empty ;;; ret []
  else
    let secret_with_eot := secret_message ++ [EOT_CHAR] in
    secret_binary <- _message_to_binary secret_with_eot ;;
    if py_not secret_binary then
      print Could_not_convert_secret_message ;;; ret []
    else
      let carrier_words := split carrier_text in
      if len secret_binary >? len carrier_words - 1 then
        print Carrier_text_is_not_long_enough ;;;
        print (Carrier_capacity (len carrier_words - 1)) ;;;
        print (Secret_message_size (len secret_binary)) ;;;
        ret []
      else
        print (Successfully_converted (len secret_binary)) ;;;
        print (Bit_slots_available (len carrier_words - 1)) ;;;
        let output_words := weave_loop 0 carrier_words secret_binary in
        let stego_text := join output_words in
        ret stego_text.

(** The scan of [decode] (lines 173-180): the value of [bit_stream] after
    the loop over the characters of the text. *)
Definition scan_bits (stego_text : str) : bitstr :=
  fold_left
    (fun bit_stream c =>
       if c =? ZERO_BIT then bit_stream ++ [b0]
       else if c =? ONE_BIT then bit_stream ++ [b1]
       else bit_stream)
    stego_text [].

(** [decode] (lines 158-189). *)
Definition decode (stego_text : str) : io str :=
  if py_not stego_text then
    print Steganographic_text_cannot_be_empty ;;; ret []
  else
    print Scanning_text ;;;
    let bit_stream := scan_bits stego_text in
    if py_not bit_stream then
      print No_hidden_message_found ;;; ret []
    else
      print (Found_hidden_stream (len bit_stream)) ;;;
      _binary_to_message bit_stream.

(** ** Concrete inputs used below *)

Definition str_Hi : str := [72; 105].
Definition str_A : str := [65].

(** ["a b c d e f g h i j"]. *)
Definition carrier_10 : str :=
  [97; 32; 98; 32; 99; 32; 100; 32; 101; 32; 102; 32; 103; 32; 104; 32;
   105; 32; 106].

(** [n] tokens ["x"] joined by single spaces. *)
Definition carrier_x (n : nat) : str := join (repeat [120] n).

(** ** Descriptions used in the statements *)

(** The description of unpacking to compare the loop with: the complete
    8-bit groups of a stream in order (a tail of fewer than 8 bits is
    left out), and the bytes read up to the first sentinel. *)
Fixpoint groups (s : bitstr) : list bitstr :=
  match s with
  | d1 :: d2 :: d3 :: d4 :: d5 :: d6 :: d7 :: d8 :: rest =>
      [d1; d2; d3; d4; d5; d6; d7; d8] :: groups rest
  | _ => []
  end.

Fixpoint until_sentinel (bs : list Z) : list Z :=
  match bs with
  | [] => []
  | b :: rest => if b =? 0x04 then [] else b :: until_sentinel rest
  end.

Definition unpack_spec (s : bitstr) : list Z :=
  until_sentinel (map int2 (groups s)).

(** Markers and visible characters. *)
Definition is_marker (c : char) : bool := (c =? ZERO_BIT) || (c =? ONE_BIT).

(** The bit that the scan appends for one character, if any. *)
Definition marker_bits (c : char) : bitstr :=
  if c =? ZERO_BIT then [b0] else if c =? ONE_BIT then [b1] else [].

(** The marker that [encode] emits for a bit. *)
Definition marker_of (d : bit) : char :=
  if bit_eqb d b1 then ONE_BIT else ZERO_BIT.

(** The characters that are not markers, in order. *)
Definition visible (s : str) : str := filter (fun c => negb (is_marker c)) s.

Definition marker_free (s : str) : Prop := forall c, In c s -> is_marker c = false.

Definition space_free (s : str) : Prop := ~ In SPACE s.

Definition marker_freeb (s : str) : bool :=
  forallb (fun c => negb (is_marker c)) s.

(** Tokens and markers alternating, the markers after the first tokens. *)
Fixpoint interleave (ws ms : list str) : list str :=
  match ws with
  | [] => []
  | w :: ws' =>
      match ms with
      | [] => w :: ws'
      | m :: ms' => w :: m :: interleave ws' ms'
      end
  end.

(** [enc] is obtained from [bs] by dropping elements. *)
Inductive subseq {A : Type} : list A -> list A -> Prop :=
| subseq_nil : subseq [] []
| subseq_keep x l1 l2 : subseq l1 l2 -> subseq (x :: l1) (x :: l2)
| subseq_drop x l1 l2 : subseq l1 l2 -> subseq l1 (x :: l2).

(** No line was printed on the error channel. *)
Definition no_error {A : Type} (r : io A) : bool :=
  forallb (fun l => match channel_of l with stdout => true | stderr => false end)
          (printed r).

(** The bits that [encode] embeds for a secret with UTF-8 bytes [bs]. *)
Definition packed (bs : bytes) : bitstr := flat_map format_08b (bs ++ [0x04]).

(** A Python [str] holds code points [0 .. 0x10FFFF]; the surrogates are
    the code points that UTF-8 cannot encode. *)
Definition is_code_point (c : char) : bool := (0 <=? c) && (c <=? 0x10FFFF).

Definition is_surrogate (c : char) : bool := (0xD800 <=? c) && (c <=? 0xDFFF).

(** The number of space characters of a text. *)
Definition spaces (s : str) : nat := count_occ Z.eq_dec s SPACE.

(** * Properties *)

(** ** Tactics *)

Ltac zarith := Z.div_mod_to_equations; lia.

(** Settles the comparisons of a goal whose outcome follows from the
    hypotheses by arithmetic. *)
Ltac settle_tests :=
  repeat match goal with
  | |- context [?a <? ?b] =>
      first [ rewrite (proj2 (Z.ltb_lt a b)) by zarith
            | rewrite (proj2 (Z.ltb_ge a b)) by zarith ]
  | |- context [?a <=? ?b] =>
      first [ rewrite (proj2 (Z.leb_le a b)) by zarith
            | rewrite (proj2 (Z.leb_gt a b)) by zarith ]
  | |- context [?a =? ?b] =>
      first [ rewrite (proj2 (Z.eqb_eq a b)) by zarith
            | rewrite (proj2 (Z.eqb_neq a b)) by zarith ]
  end.

(** ** The monad of printed lines *)

Lemma bind_ret_l {A B : Type} (a : A) (k : A -> io B) : bind (ret a) k = k a.
Proof. unfold bind, ret. destruct (k a); reflexivity. Qed.

Lemma bind_print {B : Type} (l : line) (k : io B) :
  (print l ;;; k) = (l :: printed k, value k).
Proof. unfold bind, print. destruct k; reflexivity. Qed.

(** ** Binary digits *)

Lemma bit_val_range (d : bit) : 0 <= bit_val d <= 1.
Proof. destruct d; simpl; lia. Qed.

Lemma fold_int2_acc (s : bitstr) (a : Z) :
  fold_left (fun acc d => 2 * acc + bit_val d) s a
  = a * 2 ^ len s + int2 s.
Proof.
  unfold int2, len. revert a.
  induction s as [|d s IH]; intros a.
  - simpl. lia.
  - cbn [fold_left length]. rewrite IH, (IH (2 * 0 + bit_val d)).
    rewrite Nat2Z.inj_succ, Z.pow_succ_r by apply Nat2Z.is_nonneg. ring.
Qed.

Lemma int2_cons (d : bit) (s : bitstr) :
  int2 (d :: s) = bit_val d * 2 ^ len s + int2 s.
Proof.
  unfold int2 at 1. cbn [fold_left]. rewrite fold_int2_acc. f_equal. 
Qed.

Lemma int2_app (s t : bitstr) : int2 (s ++ t) = int2 s * 2 ^ len t + int2 t.
Proof.
  unfold int2 at 1. rewrite fold_left_app. apply fold_int2_acc.
Qed.

Lemma int2_snoc (s : bitstr) (d : bit) : int2 (s ++ [d]) = 2 * int2 s + bit_val d.
Proof. unfold int2. rewrite fold_left_app. reflexivity. Qed.

Lemma int2_range (s : bitstr) : 0 <= int2 s < 2 ^ len s.
Proof.
  unfold len. induction s as [|d s IH].
  - unfold int2. simpl. lia.
  - rewrite int2_cons. cbn [length]. unfold len.
    rewrite Nat2Z.inj_succ, Z.pow_succ_r by lia.
    pose proof (bit_val_range d). nia.
Qed.

Lemma int2_zeros (k : nat) (s : bitstr) : int2 (repeat b0 k ++ s) = int2 s.
Proof.
  induction k as [|k IH]; [reflexivity|].
  cbn [repeat app]. rewrite int2_cons, IH. simpl. lia.
Qed.

Lemma int2_bin_pos (p : positive) : int2 (bin_pos p) = Zpos p.
Proof.
  induction p as [q IH|q IH|]; cbn [bin_pos].
  - rewrite int2_snoc, IH. simpl. lia.
  - rewrite int2_snoc, IH. simpl. lia.
  - reflexivity.
Qed.

(** A number with [k] binary digits is at least [2 ^ (k - 1)]. *)
Lemma bin_pos_lower (p : positive) : 2 ^ (len (bin_pos p) - 1) <= Zpos p.
Proof.
  unfold len. induction p as [q IH|q IH|]; cbn [bin_pos].
  - rewrite length_app. cbn [length]. rewrite Nat2Z.inj_add.
    replace (Z.of_nat (length (bin_pos q)) + Z.of_nat 1 - 1)
      with (Z.succ (Z.of_nat (length (bin_pos q)) - 1)) by lia.
    assert (0 < length (bin_pos q))%nat by (destruct q; simpl; rewrite ?length_app; simpl; lia).
    rewrite Z.pow_succ_r by lia. lia.
  - rewrite length_app. cbn [length]. rewrite Nat2Z.inj_add.
    replace (Z.of_nat (length (bin_pos q)) + Z.of_nat 1 - 1)
      with (Z.succ (Z.of_nat (length (bin_pos q)) - 1)) by lia.
    assert (0 < length (bin_pos q))%nat by (destruct q; simpl; rewrite ?length_app; simpl; lia).
    rewrite Z.pow_succ_r by lia. lia.
  - simpl. lia.
Qed.

Lemma bin_length_byte (n : Z) :
  0 <= n < 256 -> (1 <= length (bin n) <= 8)%nat.
Proof.
  intros Hn. destruct n as [|p|p]; [simpl; lia| |lia].
  cbn [bin]. pose proof (bin_pos_lower p) as Hlow. unfold len in Hlow.
  assert (0 < length (bin_pos p))%nat
    by (destruct p; simpl; rewrite ?length_app; simpl; lia).
  split; [lia|].
  destruct (Nat.le_gt_cases (length (bin_pos p)) 8) as [|Hgt]; [assumption|].
  exfalso.
  assert (2 ^ 8 <= 2 ^ (Z.of_nat (length (bin_pos p)) - 1))
    by (apply Z.pow_le_mono_r; lia).
  change (2 ^ 8) with 256 in *. lia.
Qed.

Lemma format_08b_length (n : Z) : 0 <= n < 256 -> length (format_08b n) = 8%nat.
Proof.
  intros Hn. pose proof (bin_length_byte n Hn).
  unfold format_08b, zero_pad. rewrite length_app, repeat_length. lia.
Qed.

Lemma int2_format_08b (n : Z) : 0 <= n < 256 -> int2 (format_08b n) = n.
Proof.
  intros Hn. unfold format_08b, zero_pad. rewrite int2_zeros.
  destruct n as [|p|p]; [reflexivity| |lia]. apply int2_bin_pos.
Qed.

(** Digit [i] of a binary string is the bit of weight [2 ^ (length - 1 - i)]
    of its value: the string is read most significant bit first. *)
Lemma int2_testbit (s : bitstr) (i : nat) :
  (i < length s)%nat ->
  bit_val (nth i s b0)
  = Z.b2z (Z.testbit (int2 s) (Z.of_nat (length s - 1 - i))).
Proof.
  revert i. induction s as [|d s IH] using rev_ind; intros i Hi.
  - simpl in Hi. lia.
  - rewrite length_app in Hi |- *. cbn [length] in Hi |- *.
    rewrite int2_snoc.
    replace (bit_val d) with (Z.b2z (match d with b0 => false | b1 => true end))
      by (destruct d; reflexivity).
    destruct (Nat.eq_dec i (length s)) as [->|Hne].
    + rewrite nth_middle.
      replace (length s + 1 - 1 - length s)%nat with 0%nat by lia.
      change (Z.of_nat 0) with 0. rewrite Z.testbit_0_r.
      destruct d; reflexivity.
    + rewrite app_nth1 by lia.
      replace (length s + 1 - 1 - i)%nat with (S (length s - 1 - i)) by lia.
      rewrite Nat2Z.inj_succ, Z.testbit_succ_r by lia.
      apply IH. lia.
Qed.

(** ** UTF-8 *)

(** The shapes of an encoded character. *)
Lemma utf8_encode_char_cases (c : char) (bs : bytes) :
  utf8_encode_char c = Some bs ->
  (0 <= c < 0x80 /\ bs = [c])
  \/ (0x80 <= c < 0x800 /\ bs = [0xC0 + c / 64; 0x80 + c mod 64])
  \/ (0x800 <= c < 0x10000 /\ ~ (0xD800 <= c <= 0xDFFF)
      /\ bs = [0xE0 + c / 4096; 0x80 + (c / 64) mod 64; 0x80 + c mod 64])
  \/ (0x10000 <= c <= 0x10FFFF
      /\ bs = [0xF0 + c / 262144; 0x80 + (c / 4096) mod 64;
               0x80 + (c / 64) mod 64; 0x80 + c mod 64]).
Proof.
  unfold utf8_encode_char.
  destruct (Z.ltb_spec c 0); [discriminate|].
  destruct (Z.ltb_spec c 0x80).
  { intros [= <-]. left. split; [lia|reflexivity]. }
  destruct (Z.ltb_spec c 0x800).
  { intros [= <-]. right; left. split; [lia|reflexivity]. }
  destruct (Z.ltb_spec c 0x10000).
  { destruct (Z.leb_spec 0xD800 c); destruct (Z.leb_spec c 0xDFFF);
      cbn [andb]; try discriminate;
      intros [= <-]; right; right; left; repeat split; lia. }
  destruct (Z.leb_spec c 0x10FFFF); [|discriminate].
  intros [= <-]. right; right; right. split; [lia|reflexivity].
Qed.


Lemma utf8_encode_char_bytes (c : char) (bs : bytes) :
  utf8_encode_char c = Some bs -> byte_values bs.
Proof.
  intros H. apply utf8_encode_char_cases in H.
  destruct H as [[Hc ->]|[[Hc ->]|[(Hc & Hs & ->)|[Hc ->]]]];
    repeat constructor; zarith.
Qed.

(** A decoder that meets the encoding of a character yields that character
    and goes on with the rest of the data. *)
Lemma utf8_decode_encode_char (c : char) (bs rest : bytes) :
  utf8_encode_char c = Some bs ->
  utf8_decode_ignore (bs ++ rest) = c :: utf8_decode_ignore rest.
Proof.
  intros H. apply utf8_encode_char_cases in H.
  destruct H as [[Hc ->]|[[Hc ->]|[(Hc & Hs & ->)|[Hc ->]]]];
    cbn [app utf8_decode_ignore]; unfold is_continuation.
  - settle_tests. reflexivity.
  - settle_tests. cbn [andb negb]. f_equal. zarith.
  - settle_tests. cbn [andb negb orb].
    destruct (Z.ltb_spec (0x80 + (c / 64) mod 64) 0xA0);
      settle_tests; cbn [andb negb orb]; f_equal; zarith.
  - settle_tests. cbn [andb negb orb].
    destruct (Z.ltb_spec (0x80 + (c / 4096) mod 64) 0x90);
      settle_tests; cbn [andb negb orb]; f_equal; zarith.
Qed.

Lemma utf8_encode_cons_inv (c : char) (s : str) (bs : bytes) :
  utf8_encode (c :: s) = Some bs ->
  exists b bs', utf8_encode_char c = Some b /\ utf8_encode s = Some bs'
                /\ bs = b ++ bs'.
Proof.
  cbn [utf8_encode].
  destruct (utf8_encode_char c) as [b|]; [|discriminate].
  destruct (utf8_encode s) as [bs'|]; [|discriminate].
  intros [= <-]. eauto.
Qed.

(** Strict encoding followed by lenient decoding is the identity. *)
Lemma utf8_decode_encode (s : str) (bs : bytes) :
  utf8_encode s = Some bs -> utf8_decode_ignore bs = s.
Proof.
  revert bs. induction s as [|c s IH]; intros bs H.
  - injection H as <-. reflexivity.
  - apply utf8_encode_cons_inv in H. destruct H as (b & bs' & Hc & Hs & ->).
    rewrite (utf8_decode_encode_char c b bs' Hc). f_equal. auto.
Qed.

Lemma utf8_encode_bytes (s : str) (bs : bytes) :
  utf8_encode s = Some bs -> byte_values bs.
Proof.
  revert bs. induction s as [|c s IH]; intros bs H.
  - injection H as <-. constructor.
  - apply utf8_encode_cons_inv in H. destruct H as (b & bs' & Hc & Hs & ->).
    apply Forall_app. split; [eapply utf8_encode_char_bytes|]; eauto.
Qed.

Lemma utf8_encode_app (s t : str) (bs bt : bytes) :
  utf8_encode s = Some bs -> utf8_encode t = Some bt ->
  utf8_encode (s ++ t) = Some (bs ++ bt).
Proof.
  revert bs. induction s as [|c s IH]; intros bs Hs Ht.
  - injection Hs as <-. assumption.
  - apply utf8_encode_cons_inv in Hs. destruct Hs as (b & bs' & Hc & Hs & ->).
    cbn [app utf8_encode]. rewrite Hc, (IH _ Hs Ht), app_assoc. reflexivity.
Qed.

Lemma utf8_encode_app_inv (s t : str) (b : bytes) :
  utf8_encode (s ++ t) = Some b ->
  exists bs bt, utf8_encode s = Some bs /\ utf8_encode t = Some bt
                /\ b = bs ++ bt.
Proof.
  revert b. induction s as [|c s IH]; intros b H.
  - exists [], b. auto.
  - cbn [app] in H. apply utf8_encode_cons_inv in H.
    destruct H as (bc & b' & Hc & H & ->).
    destruct (IH _ H) as (bs & bt & Hs & Ht & ->).
    exists (bc ++ bs), bt. cbn [utf8_encode]. rewrite Hc, Hs, app_assoc. auto.
Qed.


Lemma utf8_encode_EOT : utf8_encode [EOT_CHAR] = Some [0x04].
Proof. reflexivity. Qed.

(** ** Unpacking: the loop of [_binary_to_message] *)

Lemma groups_short (s : bitstr) : (length s < 8)%nat -> groups s = [].
Proof.
  intros H. do 8 (destruct s as [|? s]; [reflexivity|]).
  simpl in H. lia.
Qed.

Lemma groups_app8 (g s : bitstr) :
  length g = 8%nat -> groups (g ++ s) = g :: groups s.
Proof.
  intros H. do 8 (destruct g as [|? g]; [discriminate|]).
  destruct g; [reflexivity|discriminate].
Qed.

Lemma groups_step (s : bitstr) :
  (8 <= length s)%nat -> groups s = firstn 8 s :: groups (skipn 8 s).
Proof.
  intros H. rewrite <- (firstn_skipn 8 s) at 1.
  apply groups_app8. rewrite length_firstn. lia.
Qed.

Lemma groups_length (s : bitstr) : Forall (fun g => length g = 8%nat) (groups s).
Proof.
  remember (length s) as n eqn:Hn. revert s Hn.
  induction n as [n IH] using lt_wf_ind. intros s ->.
  destruct (Nat.lt_ge_cases (length s) 8) as [Hlt|Hge].
  - rewrite groups_short by assumption. constructor.
  - rewrite groups_step by assumption. constructor.
    + rewrite length_firstn. lia.
    + apply (IH (length (skipn 8 s))); [rewrite length_skipn; lia|reflexivity].
Qed.

Lemma slice8_length (s : bitstr) (i : nat) :
  length (slice8 s i) = Nat.min 8 (length s - i).
Proof. unfold slice8. rewrite length_firstn, length_skipn. reflexivity. Qed.

(** The loop, started at group [k] with [n] indices left that reach the
    end of the stream, appends the bytes of the remaining groups up to the
    first sentinel. *)
Lemma chunk_loop_spec (s : bitstr) (n k : nat) (acc : list Z) :
  (length s <= 8 * (k + n))%nat ->
  chunk_loop s (map (fun j => 8 * j)%nat (seq k n)) acc
  = acc ++ unpack_spec (skipn (8 * k) s).
Proof.
  unfold unpack_spec. revert k acc.
  induction n as [|n IH]; intros k acc Hcover.
  - cbn [seq map chunk_loop]. rewrite skipn_all2 by lia.
    cbn. rewrite app_nil_r. reflexivity.
  - cbn [seq map chunk_loop]. unfold len. rewrite slice8_length.
    destruct (Z.ltb_spec (Z.of_nat (Nat.min 8 (length s - 8 * k))) 8) as [Hlt|Hge].
    + rewrite groups_short by (rewrite length_skipn; lia).
      cbn. rewrite app_nil_r. reflexivity.
    + rewrite groups_step by (rewrite length_skipn; lia).
      cbn [map until_sentinel]. unfold slice8.
      change 0x04 with EOT_CHAR.
      destruct (int2 (firstn 8 (skipn (8 * k) s)) =? EOT_CHAR).
      * rewrite app_nil_r. reflexivity.
      * rewrite IH by lia. rewrite <- app_assoc. cbn [app].
        rewrite skipn_skipn.
        replace (8 * S k)%nat with (8 + 8 * k)%nat by lia. reflexivity.
Qed.

(** The bytes collected by the loop are those of the description. *)
Lemma byte_list_of_spec (s : bitstr) : byte_list_of s = unpack_spec s.
Proof.
  unfold byte_list_of, range8.
  rewrite chunk_loop_spec.
  - reflexivity.
  - pose proof (Nat.div_mod_eq (length s + 7) 8).
    pose proof (Nat.mod_upper_bound (length s + 7) 8). lia.
Qed.

Lemma until_sentinel_range (bs : list Z) :
  byte_values bs ->
  byte_values (until_sentinel bs).
Proof.
  induction 1 as [|b bs Hb _ IH]; cbn [until_sentinel]; [constructor|].
  destruct (b =? 4); constructor; assumption.
Qed.

(** Every integer appended to [byte_list] is a byte value. *)
Lemma byte_list_of_range (s : bitstr) :
  byte_values (byte_list_of s).
Proof.
  rewrite byte_list_of_spec. apply until_sentinel_range.
  apply Forall_map. eapply Forall_impl; [|apply groups_length].
  intros g Hg. cbn beta. pose proof (int2_range g) as Hr.
  unfold len in Hr. rewrite Hg in Hr. exact Hr.
Qed.

Lemma bytes_of_ints_ok (l : list Z) :
  byte_values l -> bytes_of_ints l = Some l.
Proof.
  intros H. unfold bytes_of_ints.
  replace (forallb in_byte_range l) with true; [reflexivity|].
  symmetry. apply forallb_forall. rewrite Forall_forall in H.
  intros b Hb. apply H in Hb. unfold in_byte_range.
  apply andb_true_intro. split; [apply Z.leb_le|apply Z.ltb_lt]; lia.
Qed.

(** The [try] body never raises: the [except] branch is dead code on bit
    strings. *)
Lemma binary_to_message_body_total (s : bitstr) :
  binary_to_message_body s = Some (utf8_decode_ignore (byte_list_of s)).
Proof.
  unfold binary_to_message_body.
  rewrite bytes_of_ints_ok by apply byte_list_of_range. reflexivity.
Qed.

Lemma binary_to_message_eq (s : bitstr) :
  _binary_to_message s = ret (utf8_decode_ignore (unpack_spec s)).
Proof.
  unfold _binary_to_message.
  rewrite binary_to_message_body_total, byte_list_of_spec. reflexivity.
Qed.

(** ** Packing: the bits of a byte sequence *)

Lemma pack_length (bs : bytes) :
  byte_values bs ->
  length (flat_map format_08b bs) = (8 * length bs)%nat.
Proof.
  induction 1 as [|b bs Hb _ IH]; [reflexivity|].
  cbn [flat_map length]. rewrite length_app, format_08b_length, IH by assumption.
  lia.
Qed.

Lemma groups_pack (bs : bytes) (rest : bitstr) :
  byte_values bs ->
  map int2 (groups (flat_map format_08b bs ++ rest))
  = bs ++ map int2 (groups rest).
Proof.
  induction 1 as [|b bs Hb _ IH]; [reflexivity|].
  cbn [flat_map]. rewrite <- app_assoc.
  rewrite groups_app8 by (apply format_08b_length; assumption).
  cbn [map app]. rewrite int2_format_08b, IH by assumption. reflexivity.
Qed.

Lemma until_sentinel_app (bs rest : list Z) :
  ~ In 0x04 bs -> until_sentinel (bs ++ rest) = bs ++ until_sentinel rest.
Proof.
  induction bs as [|b bs IH]; intros Hnot; [reflexivity|].
  cbn [app until_sentinel].
  destruct (Z.eqb_spec b 4) as [->|_]; [exfalso; apply Hnot; left; reflexivity|].
  rewrite IH; [reflexivity|]. intros Hin. apply Hnot. right. exact Hin.
Qed.

(** Unpacking the packing of sentinel-free bytes followed by the sentinel
    gives the bytes back, whatever follows. *)
Lemma unpack_pack_sentinel (bs : bytes) (rest : bitstr) :
  byte_values bs -> ~ In 0x04 bs ->
  unpack_spec (flat_map format_08b (bs ++ [0x04]) ++ rest) = bs.
Proof.
  intros Hr Hnot. unfold unpack_spec.
  rewrite groups_pack
    by (apply Forall_app; split; [assumption|repeat constructor; lia]).
  rewrite <- app_assoc, until_sentinel_app by assumption.
  cbn. apply app_nil_r.
Qed.

(** ** Scanning for markers *)

Lemma scan_fold (s : str) (acc : bitstr) :
  fold_left
    (fun bit_stream c =>
       if c =? ZERO_BIT then bit_stream ++ [b0]
       else if c =? ONE_BIT then bit_stream ++ [b1]
       else bit_stream) s acc
  = acc ++ flat_map marker_bits s.
Proof.
  revert acc. induction s as [|c s IH]; intros acc; cbn [fold_left flat_map].
  - symmetry. apply app_nil_r.
  - rewrite IH. unfold marker_bits.
    destruct (c =? ZERO_BIT); [|destruct (c =? ONE_BIT)];
      rewrite <- ?app_assoc; reflexivity.
Qed.

(** The scan yields one bit per marker, in order of appearance. *)
Lemma scan_bits_flat_map (s : str) : scan_bits s = flat_map marker_bits s.
Proof. unfold scan_bits. rewrite scan_fold. reflexivity. Qed.

Lemma scan_bits_app (s t : str) : scan_bits (s ++ t) = scan_bits s ++ scan_bits t.
Proof. rewrite !scan_bits_flat_map. apply flat_map_app. Qed.

Lemma scan_bits_cons (c : char) (s : str) :
  scan_bits (c :: s) = marker_bits c ++ scan_bits s.
Proof. rewrite !scan_bits_flat_map. reflexivity. Qed.

Lemma marker_bits_length (c : char) :
  length (marker_bits c) = if is_marker c then 1%nat else 0%nat.
Proof.
  unfold marker_bits, is_marker.
  destruct (c =? ZERO_BIT); [reflexivity|]. destruct (c =? ONE_BIT); reflexivity.
Qed.

Lemma scan_bits_marker_free (s : str) : marker_free s -> scan_bits s = [].
Proof.
  rewrite scan_bits_flat_map. induction s as [|c s IH]; intros H; [reflexivity|].
  cbn [flat_map]. rewrite IH by (intros x Hx; apply H; right; exact Hx).
  pose proof (marker_bits_length c) as Hl.
  rewrite (H c) in Hl by (left; reflexivity).
  destruct (marker_bits c); [reflexivity|discriminate].
Qed.

(** A text with a marker has a non-empty scan. *)
Lemma scan_bits_marker (s : str) (c : char) :
  In c s -> is_marker c = true -> (0 < length (scan_bits s))%nat.
Proof.
  rewrite scan_bits_flat_map. induction s as [|x s IH]; intros Hin Hm; [contradiction|].
  cbn [flat_map]. rewrite length_app. destruct Hin as [->|Hin].
  - rewrite marker_bits_length, Hm. lia.
  - specialize (IH Hin Hm). lia.
Qed.

Lemma scan_bits_marker_of (d : bit) : scan_bits [marker_of d] = [d].
Proof. destruct d; reflexivity. Qed.

Lemma scan_bits_join (ws : list str) :
  scan_bits (join ws) = flat_map scan_bits ws.
Proof.
  induction ws as [|w ws IH]; [reflexivity|].
  cbn [join flat_map]. destruct ws as [|w' ws].
  - cbn [flat_map]. symmetry. apply app_nil_r.
  - rewrite scan_bits_app, scan_bits_cons, IH. reflexivity.
Qed.

(** ** Splitting and joining *)

Lemma split_nonempty (s : str) : split s <> [].
Proof.
  destruct s as [|c s]; cbn [split]; [discriminate|].
  destruct (c =? SPACE); [discriminate|]. destruct (split s); discriminate.
Qed.

Lemma split_length (s : str) : (1 <= length (split s))%nat.
Proof.
  pose proof (split_nonempty s). destruct (split s); [congruence|simpl; lia].
Qed.

Lemma join_split (s : str) : join (split s) = s.
Proof.
  induction s as [|c s IH]; [reflexivity|]. cbn [split].
  destruct (Z.eqb_spec c SPACE) as [->|Hc].
  - pose proof (split_nonempty s). cbn [join].
    destruct (split s) as [|w ws]; [congruence|]. rewrite IH. reflexivity.
  - pose proof (split_nonempty s).
    destruct (split s) as [|w ws]; [congruence|].
    rewrite <- IH. cbn [join]. destruct ws; reflexivity.
Qed.

Lemma split_space_free (s : str) : Forall space_free (split s).
Proof.
  induction s as [|c s IH]; cbn [split].
  - constructor; [intros []|constructor].
  - destruct (Z.eqb_spec c SPACE) as [->|Hc].
    + constructor; [intros []|assumption].
    + destruct (split s) as [|w ws].
      * constructor; [|constructor]. intros [H|[]]. congruence.
      * inversion IH as [|? ? Hw Hws]; subst. constructor; [|assumption].
        intros [H|H]; [congruence|]. exact (Hw H).
Qed.

Lemma split_space_free_token (w : str) : space_free w -> split w = [w].
Proof.
  induction w as [|c w IH]; intros H; [reflexivity|]. cbn [split].
  destruct (Z.eqb_spec c SPACE) as [->|Hc]; [exfalso; apply H; left; reflexivity|].
  rewrite IH; [reflexivity|]. intros Hin. apply H. right. exact Hin.
Qed.

Lemma split_app_space (w t : str) :
  space_free w -> split (w ++ SPACE :: t) = w :: split t.
Proof.
  induction w as [|c w IH]; intros H; cbn [app split].
  - rewrite Z.eqb_refl. reflexivity.
  - destruct (Z.eqb_spec c SPACE) as [->|Hc]; [exfalso; apply H; left; reflexivity|].
    rewrite IH; [reflexivity|]. intros Hin. apply H. right. exact Hin.
Qed.

(** Splitting undoes joining when no item contains a space. *)
Lemma split_join (ws : list str) :
  ws <> [] -> Forall space_free ws -> split (join ws) = ws.
Proof.
  induction ws as [|w ws IH]; intros Hne Hsf; [congruence|].
  inversion Hsf as [|? ? Hw Hws]; subst. cbn [join]. destruct ws as [|w' ws].
  - apply split_space_free_token. assumption.
  - rewrite split_app_space by assumption. f_equal. apply IH; [discriminate|assumption].
Qed.

Lemma split_marker_free (s : str) :
  marker_free s -> Forall marker_free (split s).
Proof.
  induction s as [|c s IH]; intros H; cbn [split].
  - constructor; [intros ? []|constructor].
  - assert (Hs : marker_free s) by (intros x Hx; apply H; right; exact Hx).
    specialize (IH Hs). destruct (c =? SPACE).
    + constructor; [intros ? []|assumption].
    + destruct (split s) as [|w ws].
      * constructor; [|constructor]. intros x [<-|[]]. apply H. left. reflexivity.
      * inversion IH as [|? ? Hw Hws]; subst. constructor; [|assumption].
        intros x [<-|Hx]; [apply H; left; reflexivity|apply Hw; exact Hx].
Qed.

(** ** Weaving *)

Lemma interleave_nil_r (ws : list str) : interleave ws [] = ws.
Proof. destruct ws; reflexivity. Qed.

Lemma weave_loop_done (i : nat) (ws : list str) (bits : bitstr) :
  (length bits <= i)%nat -> weave_loop i ws bits = ws.
Proof.
  revert i. induction ws as [|w ws IH]; intros i Hi; [reflexivity|].
  cbn [weave_loop].
  rewrite (proj2 (nth_error_None bits i)) by assumption.
  rewrite IH by lia. reflexivity.
Qed.

(** The loop puts the marker of bit [i] right after token [i] in
    [output_words], as an item of its own. *)
Lemma weave_loop_interleave (i : nat) (ws : list str) (bits : bitstr) :
  weave_loop i ws bits
  = interleave ws (map (fun d => [marker_of d]) (skipn i bits)).
Proof.
  revert i. induction ws as [|w ws IH]; intros i; [reflexivity|].
  cbn [weave_loop]. destruct (nth_error bits i) as [d|] eqn:Hd.
  - apply nth_error_split in Hd. destruct Hd as (l1 & l2 & -> & <-).
    rewrite IH.
    replace (skipn (length l1) (l1 ++ d :: l2)) with (d :: l2)
      by (rewrite skipn_app, skipn_all, Nat.sub_diag; reflexivity).
    replace (skipn (S (length l1)) (l1 ++ d :: l2)) with l2
      by (rewrite skipn_app, skipn_all2 by lia;
          replace (S (length l1) - length l1)%nat with 1%nat by lia;
          reflexivity).
    reflexivity.
  - apply nth_error_None in Hd. rewrite skipn_all2 by assumption.
    rewrite weave_loop_done by lia. reflexivity.
Qed.

Lemma interleave_nonempty (ws ms : list str) : ws <> [] -> interleave ws ms <> [].
Proof. destruct ws; [congruence|]. destruct ms; discriminate. Qed.

Lemma marker_space_free (d : bit) : space_free [marker_of d].
Proof. destruct d; intros [H|[]]; discriminate. Qed.

Lemma interleave_space_free (ws : list str) (bits : bitstr) :
  Forall space_free ws ->
  Forall space_free (interleave ws (map (fun d => [marker_of d]) bits)).
Proof.
  revert bits. induction ws as [|w ws IH]; intros bits H; [constructor|].
  inversion H as [|? ? Hw Hws]; subst. destruct bits as [|d bits]; cbn [map interleave].
  - assumption.
  - constructor; [assumption|]. constructor; [apply marker_space_free|].
    apply IH. assumption.
Qed.

(** The markers of the interleaved list: those of the tokens, with the
    woven bits in between. *)
Lemma scan_interleave_length (ws : list str) (bits : bitstr) :
  length (flat_map scan_bits (interleave ws (map (fun d => [marker_of d]) bits)))
  = (length (flat_map scan_bits ws) + Nat.min (length ws) (length bits))%nat.
Proof.
  revert bits. induction ws as [|w ws IH]; intros bits; [reflexivity|].
  destruct bits as [|d bits]; cbn [map interleave].
  - rewrite Nat.min_0_r. lia.
  - cbn [flat_map length]. rewrite !length_app, IH, scan_bits_marker_of.
    cbn [length]. lia.
Qed.

Lemma scan_interleave_marker_free (ws : list str) (bits : bitstr) :
  Forall marker_free ws ->
  flat_map scan_bits (interleave ws (map (fun d => [marker_of d]) bits))
  = firstn (length ws) bits.
Proof.
  revert bits. induction ws as [|w ws IH]; intros bits H; [reflexivity|].
  inversion H as [|? ? Hw Hws]; subst.
  destruct bits as [|d bits]; cbn [map interleave flat_map length firstn].
  - rewrite scan_bits_marker_free by assumption.
    specialize (IH [] Hws). rewrite firstn_nil in IH.
    cbn [map] in IH. rewrite interleave_nil_r in IH. exact IH.
  - rewrite scan_bits_marker_free, scan_bits_marker_of, IH by assumption.
    reflexivity.
Qed.

(** ** The outcomes of [encode] *)

Lemma packed_length (bs : bytes) :
  byte_values bs ->
  length (packed bs) = (8 * (length bs + 1))%nat.
Proof.
  intros H. unfold packed. rewrite pack_length.
  - rewrite length_app. reflexivity.
  - apply Forall_app. split; [assumption|repeat constructor; lia].
Qed.

Lemma packed_nonempty (bs : bytes) : py_not (packed bs) = false.
Proof.
  unfold packed. rewrite flat_map_app. cbn [flat_map].
  destruct (flat_map format_08b bs); reflexivity.
Qed.

Lemma py_not_nonempty {A : Type} (s : list A) : s <> [] -> py_not s = false.
Proof. destruct s; [congruence|reflexivity]. Qed.

Section EncodeOutcomes.

Variables (carrier secret : str) (bs : bytes).
Hypothesis Hcarrier : carrier <> [].
Hypothesis Hsecret : secret <> [].
Hypothesis Hbytes : utf8_encode secret = Some bs.

Lemma message_to_binary_eot :
  _message_to_binary (secret ++ [EOT_CHAR]) = ret (packed bs).
Proof.
  unfold _message_to_binary.
  rewrite (utf8_encode_app secret [EOT_CHAR] bs [0x04] Hbytes utf8_encode_EOT).
  reflexivity.
Qed.

(** Up to the capacity check the two outcomes run alike. *)
Lemma encode_capacity_check :
  encode carrier secret
  = if len (packed bs) >? len (split carrier) - 1 then
      ([Carrier_text_is_not_long_enough;
        Carrier_capacity (len (split carrier) - 1);
        Secret_message_size (len (packed bs))], [])
    else
      ([Successfully_converted (len (packed bs));
        Bit_slots_available (len (split carrier) - 1)],
       join (weave_loop 0 (split carrier) (packed bs))).
Proof.
  unfold encode.
  rewrite (py_not_nonempty carrier Hcarrier).
  rewrite (py_not_nonempty secret Hsecret).
  rewrite message_to_binary_eot, bind_ret_l, packed_nonempty.
  destruct (len (packed bs) >? len (split carrier) - 1); reflexivity.
Qed.

(** The one successful path of [encode]. *)
Lemma encode_success :
  len (packed bs) <= len (split carrier) - 1 ->
  encode carrier secret
  = ([Successfully_converted (len (packed bs));
      Bit_slots_available (len (split carrier) - 1)],
     join (weave_loop 0 (split carrier) (packed bs))).
Proof.
  intros Hcap. rewrite encode_capacity_check.
  destruct (Z.gtb_spec (len (packed bs)) (len (split carrier) - 1));
    [lia|reflexivity].
Qed.

(** The capacity failure of [encode]. *)
Lemma encode_insufficient :
  len (packed bs) > len (split carrier) - 1 ->
  encode carrier secret
  = ([Carrier_text_is_not_long_enough;
      Carrier_capacity (len (split carrier) - 1);
      Secret_message_size (len (packed bs))], []).
Proof.
  intros Hcap. rewrite encode_capacity_check.
  destruct (Z.gtb_spec (len (packed bs)) (len (split carrier) - 1));
    [reflexivity|lia].
Qed.

End EncodeOutcomes.

Lemma message_to_binary_eot_fail (secret : str) :
  utf8_encode secret = None ->
  _message_to_binary (secret ++ [EOT_CHAR])
  = ([Error_converting_message_to_binary], []).
Proof.
  intros H. unfold _message_to_binary.
  destruct (utf8_encode (secret ++ [EOT_CHAR])) as [b|] eqn:Hb; [|reflexivity].
  apply utf8_encode_app_inv in Hb. destruct Hb as (bs & _ & Hs & _). congruence.
Qed.

(** [encode] prints no error exactly on the successful path. *)
Lemma encode_no_error_inv (carrier secret : str) :
  no_error (encode carrier secret) = true ->
  exists bs, carrier <> [] /\ secret <> [] /\ utf8_encode secret = Some bs
             /\ len (packed bs) <= len (split carrier) - 1.
Proof.
  intros H.
  destruct carrier as [|c carrier]; [discriminate|].
  destruct secret as [|x secret]; [discriminate|].
  destruct (utf8_encode (x :: secret)) as [bs|] eqn:Hbs.
  - exists bs. repeat split; try discriminate.
    destruct (Z.le_gt_cases (len (packed bs)) (len (split (c :: carrier)) - 1))
      as [|Hgt]; [assumption|].
    rewrite (encode_insufficient (c :: carrier) (x :: secret) bs) in H;
      [discriminate|discriminate|discriminate|assumption|lia].
  - unfold encode in H. cbn [py_not] in H.
    rewrite (message_to_binary_eot_fail _ Hbs) in H. discriminate.
Qed.

(** ** More on the two codecs *)

(** [format(b, '08b')] is most significant bit first. *)
Lemma format_08b_msb_first (b : Z) (i : nat) :
  0 <= b < 256 -> (i < 8)%nat ->
  nth i (format_08b b) b0 = if Z.testbit b (7 - Z.of_nat i) then b1 else b0.
Proof.
  intros Hb Hi.
  pose proof (int2_testbit (format_08b b) i) as H.
  rewrite format_08b_length, int2_format_08b in H by assumption.
  specialize (H Hi).
  replace (Z.of_nat (8 - 1 - i)) with (7 - Z.of_nat i) in H by lia.
  destruct (nth i (format_08b b) b0), (Z.testbit b (7 - Z.of_nat i));
    simpl in H; congruence.
Qed.


Lemma subseq_nil_l {A : Type} (l : list A) : subseq [] l.
Proof. induction l; constructor; assumption. Qed.

Lemma subseq_refl {A : Type} (l : list A) : subseq l l.
Proof. induction l; constructor; assumption. Qed.

Lemma Forall_tail (P : Z -> Prop) (x : Z) (l : list Z) :
  Forall P (x :: l) -> Forall P l.
Proof. intros H. inversion H. assumption. Qed.

(** What lenient decoding returns is a well-formed string, and its strict
    encoding is the input with the ill-formed bytes dropped. *)
Lemma utf8_decode_ignore_drops (n : nat) (bs : bytes) :
  (length bs <= n)%nat -> byte_values bs ->
  exists enc, utf8_encode (utf8_decode_ignore bs) = Some enc /\ subseq enc bs.
Proof.
  unfold bytes, byte in *.
  revert bs. induction n as [|n IH]; intros bs Hlen Hr.
  { destruct bs; [|simpl in Hlen; lia]. exists []. split; [reflexivity|constructor]. }
  assert (Hemit : forall (c : Z) (b rest : list Z),
             utf8_encode_char c = Some b -> bs = b ++ rest ->
             b <> [] -> utf8_decode_ignore bs = c :: utf8_decode_ignore rest ->
             exists enc, utf8_encode (utf8_decode_ignore bs) = Some enc
                         /\ subseq enc bs).
  { intros c b rest Hc Hbs Hb Hdec. subst bs.
    destruct (IH rest) as (enc & He & Hsub).
    - rewrite length_app in Hlen. destruct b; [congruence|]. simpl in Hlen. lia.
    - apply Forall_app in Hr. tauto.
    - exists (b ++ enc). rewrite Hdec. cbn [utf8_encode]. rewrite Hc, He.
      split; [reflexivity|]. clear - Hsub.
      induction b; [assumption|]. cbn [app]. constructor. assumption. }
  assert (Hskip : forall tl : list Z, (length tl <= n)%nat ->
             byte_values tl ->
             forall pre, bs = pre ++ tl ->
             utf8_decode_ignore bs = utf8_decode_ignore tl ->
             exists enc, utf8_encode (utf8_decode_ignore bs) = Some enc
                         /\ subseq enc bs).
  { intros tl Hl Ht pre Hbs Hdec. destruct (IH tl Hl Ht) as (enc & He & Hsub).
    exists enc. rewrite Hdec. split; [assumption|]. subst bs. clear - Hsub.
    induction pre; [assumption|]. cbn [app]. constructor. assumption. }
  assert (Hstop : utf8_decode_ignore bs = [] ->
             exists enc, utf8_encode (utf8_decode_ignore bs) = Some enc
                         /\ subseq enc bs).
  { intros ->. exists []. split; [reflexivity|apply subseq_nil_l]. }
  destruct bs as [|c1 t1]; [apply Hstop; reflexivity|].
  cbn [length] in Hlen.
  pose proof (Forall_inv Hr) as R1. pose proof (Forall_tail _ _ _ Hr) as Rt1.
  cbn beta in R1.
  cbn [utf8_decode_ignore] in Hemit, Hskip, Hstop |- *.
  destruct (Z.ltb_spec c1 0x80).
  { apply (Hemit c1 [c1] t1); try reflexivity; try discriminate.
    unfold utf8_encode_char. settle_tests. reflexivity. }
  destruct (Z.ltb_spec c1 0xC2).
  { apply (Hskip t1) with (pre := [c1]);
             [simpl; lia|exact Rt1|reflexivity|reflexivity]. }
  destruct (Z.ltb_spec c1 0xE0).
  { destruct t1 as [|c2 t2]; [apply Hstop; reflexivity|].
    cbn [length] in Hlen.
    pose proof (Forall_inv Rt1) as R2. pose proof (Forall_tail _ _ _ Rt1) as Rt2.
    cbn beta in R2. unfold is_continuation in *.
    destruct (Z.leb_spec 0x80 c2); destruct (Z.ltb_spec c2 0xC0);
      cbn [andb negb] in *;
      try (apply (Hskip (c2 :: t2)) with (pre := [c1]);
             [simpl; lia|exact Rt1|reflexivity|reflexivity]).
    apply (Hemit ((c1 - 0xC0) * 64 + (c2 - 0x80)) [c1; c2] t2); try reflexivity; try discriminate.
    unfold utf8_encode_char. settle_tests. do 2 f_equal; [zarith|f_equal; zarith]. }
  destruct (Z.ltb_spec c1 0xF0).
  { destruct t1 as [|c2 t2]; [apply Hstop; reflexivity|].
    cbn [length] in Hlen.
    pose proof (Forall_inv Rt1) as R2. pose proof (Forall_tail _ _ _ Rt1) as Rt2.
    cbn beta in R2. unfold is_continuation in *.
    destruct (Z.leb_spec 0x80 c2); destruct (Z.ltb_spec c2 0xC0);
      cbn [andb negb orb] in *;
      try (apply (Hskip (c2 :: t2)) with (pre := [c1]);
             [simpl; lia|exact Rt1|reflexivity|reflexivity]).
    destruct (Z.ltb_spec c2 0xA0); destruct (Z.eqb_spec c1 0xE0);
      destruct (Z.eqb_spec c1 0xED); try lia;
      try (apply (Hskip (c2 :: t2)) with (pre := [c1]);
             [simpl; lia|exact Rt1|reflexivity|reflexivity]).
    all: destruct t2 as [|c3 t3]; [apply Hstop; reflexivity|].
    all: cbn [length] in Hlen.
    all: pose proof (Forall_inv Rt2) as R3; pose proof (Forall_tail _ _ _ Rt2) as Rt3.
    all: cbn beta in R3.
    all: destruct (Z.leb_spec 0x80 c3); destruct (Z.ltb_spec c3 0xC0);
      cbn [andb negb orb] in *;
      try (apply (Hskip (c3 :: t3)) with (pre := [c1; c2]);
             [simpl; lia|exact Rt2|reflexivity|reflexivity]).
    all: apply (Hemit ((c1 - 0xE0) * 4096 + (c2 - 0x80) * 64 + (c3 - 0x80))
                      [c1; c2; c3] t3); try reflexivity; try discriminate.
    all: destruct (Z.lt_total c1 0xED) as [?|[?|?]]; try lia.
    all: unfold utf8_encode_char; settle_tests; cbn [andb].
    all: do 2 f_equal; [zarith|f_equal; [zarith|f_equal; zarith]]. }
  destruct (Z.ltb_spec c1 0xF5).
  { destruct t1 as [|c2 t2]; [apply Hstop; reflexivity|].
    cbn [length] in Hlen.
    pose proof (Forall_inv Rt1) as R2. pose proof (Forall_tail _ _ _ Rt1) as Rt2.
    cbn beta in R2. unfold is_continuation in *.
    destruct (Z.leb_spec 0x80 c2); destruct (Z.ltb_spec c2 0xC0);
      cbn [andb negb orb] in *;
      try (apply (Hskip (c2 :: t2)) with (pre := [c1]);
             [simpl; lia|exact Rt1|reflexivity|reflexivity]).
    destruct (Z.ltb_spec c2 0x90); destruct (Z.eqb_spec c1 0xF0);
      destruct (Z.eqb_spec c1 0xF4); try lia;
      try (apply (Hskip (c2 :: t2)) with (pre := [c1]);
             [simpl; lia|exact Rt1|reflexivity|reflexivity]).
    all: destruct t2 as [|c3 t3]; [apply Hstop; reflexivity|].
    all: cbn [length] in Hlen.
    all: pose proof (Forall_inv Rt2) as R3; pose proof (Forall_tail _ _ _ Rt2) as Rt3.
    all: cbn beta in R3.
    all: destruct (Z.leb_spec 0x80 c3); destruct (Z.ltb_spec c3 0xC0);
      cbn [andb negb orb] in *;
      try (apply (Hskip (c3 :: t3)) with (pre := [c1; c2]);
             [simpl; lia|exact Rt2|reflexivity|reflexivity]).
    all: destruct t3 as [|c4 t4]; [apply Hstop; reflexivity|].
    all: cbn [length] in Hlen.
    all: pose proof (Forall_inv Rt3) as R4; pose proof (Forall_tail _ _ _ Rt3) as Rt4.
    all: cbn beta in R4.
    all: destruct (Z.leb_spec 0x80 c4); destruct (Z.ltb_spec c4 0xC0);
      cbn [andb negb orb] in *;
      try (apply (Hskip (c4 :: t4)) with (pre := [c1; c2; c3]);
             [simpl; lia|exact Rt3|reflexivity|reflexivity]).
    all: apply (Hemit ((c1 - 0xF0) * 262144 + (c2 - 0x80) * 4096
                       + (c3 - 0x80) * 64 + (c4 - 0x80))
                      [c1; c2; c3; c4] t4); try reflexivity; try discriminate.
    all: unfold utf8_encode_char; settle_tests; cbn [andb].
    all: do 2 f_equal; [zarith|f_equal; [zarith|f_equal; [zarith|f_equal; zarith]]]. }
  apply (Hskip t1) with (pre := [c1]);
             [simpl; lia|exact Rt1|reflexivity|reflexivity].
Qed.

(** ** Marker-free texts *)

Lemma marker_freeb_true (s : str) : marker_freeb s = true -> marker_free s.
Proof.
  unfold marker_freeb, marker_free. intros H c Hc.
  rewrite forallb_forall in H. apply H in Hc.
  destruct (is_marker c); [discriminate|reflexivity].
Qed.

Lemma marker_freeb_false (s : str) :
  marker_freeb s = false -> exists c, In c s /\ is_marker c = true.
Proof.
  unfold marker_freeb. induction s as [|x s IH]; cbn [forallb]; [discriminate|].
  destruct (is_marker x) eqn:Hx; cbn [negb andb].
  - intros _. exists x. split; [left; reflexivity|assumption].
  - intros H. destruct (IH H) as (c & Hc & Hm). exists c. split; [right|]; assumption.
Qed.

(** The scan of a woven text whose tokens carry no marker is the woven
    bits, as long as there are at least as many tokens as bits. *)
Lemma scan_weave (carrier : str) (bits : bitstr) :
  marker_free carrier -> (length bits <= length (split carrier))%nat ->
  scan_bits (join (weave_loop 0 (split carrier) bits)) = bits.
Proof.
  intros Hfree Hlen.
  rewrite scan_bits_join, weave_loop_interleave. cbn [skipn].
  rewrite scan_interleave_marker_free by (apply split_marker_free; assumption).
  apply firstn_all2. assumption.
Qed.

Lemma scan_weave_length (carrier : str) (bits : bitstr) :
  (length bits <= length (split carrier))%nat ->
  length (scan_bits (join (weave_loop 0 (split carrier) bits)))
  = (length (scan_bits carrier) + length bits)%nat.
Proof.
  intros Hlen.
  rewrite scan_bits_join, weave_loop_interleave. cbn [skipn].
  rewrite scan_interleave_length, <- scan_bits_join, join_split. lia.
Qed.

Lemma carrier_with_capacity_nonempty (carrier : str) (bs : bytes) :
  len (packed bs) <= len (split carrier) - 1 -> carrier <> [].
Proof.
  intros H ->. pose proof (packed_nonempty bs) as Hne.
  unfold len in H. cbn in H. destruct (packed bs); [discriminate|].
  cbn [length] in H. lia.
Qed.

Lemma unpack_packed (bs : bytes) :
  byte_values bs -> ~ In 0x04 bs ->
  unpack_spec (packed bs) = bs.
Proof.
  intros Hr Hnot. pose proof (unpack_pack_sentinel bs [] Hr Hnot) as H.
  rewrite app_nil_r in H. exact H.
Qed.

(** ** Visible characters of the stego text *)

Lemma visible_app (s t : str) : visible (s ++ t) = visible s ++ visible t.
Proof. apply filter_app. Qed.

Lemma visible_marker_free (s : str) : marker_free s -> visible s = s.
Proof.
  unfold visible. induction s as [|c s IH]; intros H; [reflexivity|].
  cbn [filter]. rewrite (H c) by (left; reflexivity). cbn [negb].
  rewrite IH; [reflexivity|]. intros x Hx. apply H. right. exact Hx.
Qed.

Lemma visible_join (ws : list str) : visible (join ws) = join (map visible ws).
Proof.
  induction ws as [|w ws IH]; [reflexivity|].
  cbn [join map]. destruct ws as [|w' ws]; [reflexivity|].
  rewrite visible_app. cbn [map] in IH |- *. rewrite <- IH. reflexivity.
Qed.

Lemma visible_interleave (ws : list str) (bits : bitstr) :
  Forall marker_free ws ->
  map visible (interleave ws (map (fun d => [marker_of d]) bits))
  = interleave ws (repeat [] (length bits)).
Proof.
  revert bits. induction ws as [|w ws IH]; intros bits H; [reflexivity|].
  inversion H as [|? ? Hw Hws]; subst.
  destruct bits as [|d bits]; cbn [map interleave length repeat].
  - rewrite visible_marker_free by assumption. f_equal.
    specialize (IH [] Hws). cbn [map length repeat] in IH.
    rewrite !interleave_nil_r in IH. exact IH.
  - rewrite visible_marker_free, IH by assumption.
    destruct d; reflexivity.
Qed.

(** X4: what remains of the stego text of a marker-free carrier once the
    markers are removed: the tokens joined by spaces, with an empty item,
    hence a second space, after each token that had a marker. *)
Lemma visible_encode (carrier secret : str) (bs : bytes) :
  no_error (encode carrier secret) = true -> marker_freeb carrier = true ->
  utf8_encode secret = Some bs ->
  visible (value (encode carrier secret))
  = join (interleave (split carrier) (repeat [] (length (packed bs)))).
Proof.
  intros Hok Hfree Hbs.
  destruct (encode_no_error_inv carrier secret Hok)
    as (bs' & Hc & Hs & Hbs' & Hcap).
  assert (bs' = bs) as -> by congruence.
  rewrite (encode_success carrier secret bs Hc Hs Hbs Hcap). cbn [value snd].
  rewrite weave_loop_interleave. cbn [skipn].
  rewrite visible_join, visible_interleave; [reflexivity|].
  apply split_marker_free, marker_freeb_true, Hfree.
Qed.

(** A secret with a lone surrogate has no UTF-8 bytes: the conversion
    raises, and [encode] reports that it could not convert the secret. *)
Example surrogate_secret_is_not_converted :
  encode carrier_10 [0xD800]
  = ([Error_converting_message_to_binary; Could_not_convert_secret_message],
     []).
Proof. reflexivity. Qed.

(** * The claims *)

(** C1, as amended: for every non-empty secret [m] whose UTF-8 bytes [bs]
    do not contain the sentinel value, and every carrier without marker
    characters whose inter-token gap count is at least the length of the
    packed bits, [decode (encode carrier m)] finds the embedded stream and
    returns [m]. *)
Theorem roundtrip_marker_free_carrier (carrier m : str) (bs : bytes) :
  m <> [] -> utf8_encode m = Some bs -> ~ In 0x04 bs ->
  marker_freeb carrier = true ->
  len (packed bs) <= len (split carrier) - 1 ->
  decode (value (encode carrier m))
  = ([Scanning_text; Found_hidden_stream (len (packed bs))], m).
Proof.
  intros Hm Hbs Hsent Hfree Hcap.
  pose proof (carrier_with_capacity_nonempty carrier bs Hcap) as Hc.
  rewrite (encode_success carrier m bs Hc Hm Hbs Hcap). cbn [value snd].
  assert (Hscan : scan_bits (join (weave_loop 0 (split carrier) (packed bs)))
                  = packed bs).
  { apply scan_weave; [apply marker_freeb_true; assumption|]. unfold len in Hcap. lia. }
  unfold decode.
  destruct (join (weave_loop 0 (split carrier) (packed bs))) as [|c stego] eqn:Hstego.
  { pose proof (packed_nonempty bs) as Hne. rewrite <- Hscan in Hne. discriminate. }
  cbn [py_not]. rewrite Hscan, packed_nonempty.
  rewrite binary_to_message_eq.
  rewrite unpack_packed
    by (try assumption; eapply utf8_encode_bytes; eassumption).
  rewrite (utf8_decode_encode m bs Hbs). reflexivity.
Qed.

Lemma roundtrip_marker_free_carrier_witness :
  decode (value (encode (carrier_x 25) str_Hi))
  = ([Scanning_text; Found_hidden_stream 24], str_Hi).
Proof.
  apply (roundtrip_marker_free_carrier (carrier_x 25) str_Hi [72; 105]).
  - discriminate.
  - reflexivity.
  - intros [H|[H|[]]]; discriminate.
  - reflexivity.
  - vm_compute. discriminate.
Defined.

(** C1, as stated, fails: a carrier with enough gaps that starts with a
    marker character shifts the recovered stream by one bit. *)
Lemma roundtrip_fails_on_marked_carrier :
  str_A <> []
  /\ utf8_encode str_A = Some [65] /\ ~ In 0x04 [65]
  /\ len (packed [65]) <= len (split (ONE_BIT :: carrier_x 17)) - 1
  /\ value (decode (value (encode (ONE_BIT :: carrier_x 17) str_A))) <> str_A.
Proof.
  split; [discriminate|]. split; [reflexivity|].
  split; [intros [H|[]]; discriminate|].
  split; [vm_compute; discriminate|]. vm_compute. discriminate.
Qed.




(** C3, as amended: for every non-empty carrier with [k] inter-token gaps
    and every non-empty secret with packed bits [packed bs], [encode]
    accepts when the bit count is at most [k], and otherwise fails with the
    capacity report, which prints both [k] and the bit count; in particular
    ["a b c d e f g h i j"] with secret ["Hi"] reports capacity 9 and
    size 24. *)
Theorem capacity_boundary (carrier secret : str) (bs : bytes) :
  carrier <> [] -> secret <> [] -> utf8_encode secret = Some bs ->
  (len (packed bs) <= len (split carrier) - 1 ->
   no_error (encode carrier secret) = true
   /\ value (encode carrier secret)
      = join (weave_loop 0 (split carrier) (packed bs)))
  /\ (len (packed bs) > len (split carrier) - 1 ->
      encode carrier secret
      = ([Carrier_text_is_not_long_enough;
          Carrier_capacity (len (split carrier) - 1);
          Secret_message_size (len (packed bs))], []))
  /\ encode carrier_10 str_Hi
     = ([Carrier_text_is_not_long_enough; Carrier_capacity 9;
         Secret_message_size 24], []).
Proof.
  intros Hc Hs Hbs. split; [|split].
  - intros Hcap. rewrite (encode_success carrier secret bs Hc Hs Hbs Hcap).
    split; reflexivity.
  - intros Hcap. apply encode_insufficient; assumption.
  - reflexivity.
Qed.

Lemma capacity_boundary_witness :
  value (encode (carrier_x 25) str_Hi)
  = join (weave_loop 0 (split (carrier_x 25)) (packed [72; 105]))
  /\ encode (carrier_x 24) str_Hi
     = ([Carrier_text_is_not_long_enough; Carrier_capacity 23;
         Secret_message_size 24], []).
Proof.
  split.
  - destruct (capacity_boundary (carrier_x 25) str_Hi [72; 105]) as (H & _ & _);
      [discriminate|discriminate|reflexivity|].
    apply H. vm_compute. discriminate.
  - destruct (capacity_boundary (carrier_x 24) str_Hi [72; 105]) as (_ & H & _);
      [discriminate|discriminate|reflexivity|].
    apply H. reflexivity.
Defined.

(** C3, as stated, fails on the empty carrier: it has zero gaps, the
    packed secret has 24 bits, and [encode] prints the empty-carrier error
    without any capacity report. *)
Lemma empty_carrier_is_not_a_capacity_failure :
  len (split []) - 1 = 0
  /\ len (packed [72; 105]) = 24
  /\ encode [] str_Hi = ([Carrier_text_cannot_be_empty], [])
  /\ encode [] str_Hi
     <> ([Carrier_text_is_not_long_enough; Carrier_capacity 0;
          Secret_message_size 24], []).
Proof. repeat split; try reflexivity. discriminate. Qed.

(** Without a sentinel, unpacking the packing of bytes followed by an
    incomplete group gives the bytes back. *)
Lemma unpack_pack_tail (bs : bytes) (tail : bitstr) :
  byte_values bs -> ~ In 0x04 bs -> (length tail < 8)%nat ->
  unpack_spec (flat_map format_08b bs ++ tail) = bs.
Proof.
  intros Hr Hnot Htail. unfold unpack_spec.
  rewrite groups_pack, groups_short by assumption.
  cbn [map]. rewrite until_sentinel_app by assumption.
  cbn. apply app_nil_r.
Qed.

(** C4: on every bit stream the loop of [_binary_to_message] reads the
    complete 8-bit groups in order and collects their byte values up to,
    and without, the first group whose value is the sentinel 0x04; without
    a sentinel it collects the values of all complete groups.  The bytes
    collected are what the function returns, decoded leniently to text.
    So a stream that packs sentinel-free bytes, then the sentinel, then
    anything, gives those bytes; and one that packs sentinel-free bytes and
    ends within fewer than 8 further bits gives all of them. *)
Theorem unpack_reads_groups_until_sentinel (stream : bitstr) :
  byte_list_of stream = until_sentinel (map int2 (groups stream))
  /\ _binary_to_message stream
     = ([], utf8_decode_ignore (byte_list_of stream))
  /\ (forall (bs : bytes) (rest : bitstr),
      byte_values bs -> ~ In 0x04 bs ->
      stream = flat_map format_08b bs ++ format_08b 0x04 ++ rest ->
      byte_list_of stream = bs)
  /\ (forall (bs : bytes) (tail : bitstr),
      byte_values bs -> ~ In 0x04 bs -> (length tail < 8)%nat ->
      stream = flat_map format_08b bs ++ tail ->
      byte_list_of stream = bs).
Proof.
  split; [apply byte_list_of_spec|]. split; [|split].
  - rewrite binary_to_message_eq, byte_list_of_spec. reflexivity.
  - intros bs rest Hr Hnot ->. rewrite byte_list_of_spec.
    pose proof (unpack_pack_sentinel bs rest Hr Hnot) as H.
    rewrite flat_map_app in H. cbn [flat_map] in H.
    rewrite app_nil_r, <- app_assoc in H. exact H.
  - intros bs tail Hr Hnot Htail ->. rewrite byte_list_of_spec.
    apply unpack_pack_tail; assumption.
Qed.

Lemma unpack_reads_groups_until_sentinel_witness :
  byte_list_of (flat_map format_08b [72; 105] ++ format_08b 0x04
                ++ format_08b 66)
  = [72; 105]
  /\ byte_list_of (flat_map format_08b [72; 105] ++ [b1; b0; b1]) = [72; 105].
Proof.
  split.
  - apply (unpack_reads_groups_until_sentinel
             (flat_map format_08b [72; 105] ++ format_08b 0x04
              ++ format_08b 66)) with (rest := format_08b 66).
    + repeat constructor; lia.
    + intros [H|[H|[]]]; discriminate.
    + reflexivity.
  - apply (unpack_reads_groups_until_sentinel
             (flat_map format_08b [72; 105] ++ [b1; b0; b1]))
      with (tail := [b1; b0; b1]).
    + repeat constructor; lia.
    + intros [H|[H|[]]]; discriminate.
    + simpl. lia.
    + reflexivity.
Defined.




(** C6: the bits that [encode] packs for a non-empty payload with UTF-8
    bytes [bs] are those of [bs] followed by the sentinel byte 0x04, each
    byte as 8 digits, most significant bit first, in order; there are
    [8 * (length bs + 1)] of them. *)
Theorem pack_appends_sentinel_msb_first (payload : str) (bs : bytes) :
  payload <> [] -> utf8_encode payload = Some bs ->
  _message_to_binary (payload ++ [EOT_CHAR])
  = ([], flat_map format_08b (bs ++ [0x04]))
  /\ (forall b, In b (bs ++ [0x04]) ->
      length (format_08b b) = 8%nat
      /\ forall i, (i < 8)%nat ->
           nth i (format_08b b) b0
           = if Z.testbit b (7 - Z.of_nat i) then b1 else b0)
  /\ length (value (_message_to_binary (payload ++ [EOT_CHAR])))
     = (8 * (length bs + 1))%nat
  /\ Nat.divide 8 (length (value (_message_to_binary (payload ++ [EOT_CHAR])))).
Proof.
  intros _ Hbs.
  pose proof (utf8_encode_bytes payload bs Hbs) as Hr.
  rewrite (message_to_binary_eot payload bs Hbs).
  split; [reflexivity|]. split; [|split].
  - intros b Hb.
    assert (0 <= b < 256) as Hrange.
    { apply in_app_or in Hb. destruct Hb as [Hb|[<-|[]]]; [|lia].
      rewrite Forall_forall in Hr. apply Hr. exact Hb. }
    split; [apply format_08b_length; assumption|].
    intros i Hi. apply format_08b_msb_first; assumption.
  - cbn [ret value snd]. apply packed_length. assumption.
  - cbn [ret value snd]. rewrite packed_length by assumption.
    exists (length bs + 1)%nat. lia.
Qed.

Lemma pack_appends_sentinel_msb_first_witness :
  _message_to_binary (str_Hi ++ [EOT_CHAR])
  = ([], flat_map format_08b ([72; 105] ++ [0x04])).
Proof.
  apply (pack_appends_sentinel_msb_first str_Hi [72; 105]).
  - discriminate.
  - reflexivity.
Defined.

(** C7, as amended: the scan is a total function that yields one bit per
    marker character, in order, and nothing for any other character; on a
    text without markers the stream is empty, and on such a text that is
    not empty [decode] prints that no hidden message was found and returns
    the empty string. *)
Theorem extraction_total (text : str) :
  scan_bits text = flat_map marker_bits text
  /\ (marker_freeb text = true -> scan_bits text = [])
  /\ (text <> [] -> marker_freeb text = true ->
      decode text = ([Scanning_text; No_hidden_message_found], [])).
Proof.
  split; [apply scan_bits_flat_map|]. split.
  - intros H. apply scan_bits_marker_free, marker_freeb_true, H.
  - intros Hne H. unfold decode. destruct text as [|c text]; [congruence|].
    cbn [py_not].
    rewrite (scan_bits_marker_free (c :: text) (marker_freeb_true _ H)).
    reflexivity.
Qed.

Lemma extraction_total_witness :
  scan_bits carrier_10 = []
  /\ decode carrier_10 = ([Scanning_text; No_hidden_message_found], []).
Proof.
  destruct (extraction_total carrier_10) as (_ & H1 & H2). split.
  - apply H1. reflexivity.
  - apply H2; [discriminate|reflexivity].
Defined.

(** C7, as stated, fails on the empty text: it has no marker, and [decode]
    prints the empty-input error, not that no message was found. *)
Lemma empty_text_is_not_no_message :
  marker_freeb [] = true
  /\ scan_bits [] = []
  /\ decode [] = ([Steganographic_text_cannot_be_empty], [])
  /\ ~ In No_hidden_message_found (printed (decode [])).
Proof.
  repeat split. intros [H|[]]. discriminate.
Qed.

(** C8: [_binary_to_message] never raises on a bit stream: the [try] body
    returns, nothing is printed, and the string returned is the lenient
    decoding of the collected bytes, a well-formed string whose UTF-8
    encoding is the collected bytes with the ill-formed ones dropped. *)
Theorem unpack_never_raises (stream : bitstr) :
  exists message enc,
    binary_to_message_body stream = Some message
    /\ _binary_to_message stream = ([], message)
    /\ message = utf8_decode_ignore (byte_list_of stream)
    /\ utf8_encode message = Some enc
    /\ subseq enc (byte_list_of stream).
Proof.
  destruct (utf8_decode_ignore_drops (length (byte_list_of stream))
              (byte_list_of stream) (Nat.le_refl _) (byte_list_of_range stream))
    as (enc & Henc & Hsub).
  exists (utf8_decode_ignore (byte_list_of stream)), enc.
  split; [apply binary_to_message_body_total|].
  split; [|split; [reflexivity|split; assumption]].
  unfold _binary_to_message. rewrite binary_to_message_body_total. reflexivity.
Qed.



(** C10: when [encode] succeeds, the markers of the stego text of a
    carrier without marker characters are exactly the packed bits of the
    secret and the sentinel, so the scan of [decode] recovers them; with a
    marker in the carrier the scan is longer than the packed bits and so
    differs from them. *)
Theorem scan_recovers_embedded_bits (carrier secret : str) :
  no_error (encode carrier secret) = true ->
  (marker_freeb carrier = true ->
   scan_bits (value (encode carrier secret))
   = value (_message_to_binary (secret ++ [EOT_CHAR])))
  /\ (marker_freeb carrier = false ->
      (length (value (_message_to_binary (secret ++ [EOT_CHAR])))
       < length (scan_bits (value (encode carrier secret))))%nat
      /\ scan_bits (value (encode carrier secret))
         <> value (_message_to_binary (secret ++ [EOT_CHAR]))).
Proof.
  intros Hok. destruct (encode_no_error_inv carrier secret Hok)
    as (bs & Hc & Hs & Hbs & Hcap).
  rewrite (encode_success carrier secret bs Hc Hs Hbs Hcap).
  rewrite (message_to_binary_eot secret bs Hbs). cbn [ret value snd].
  assert (Hlen : (length (packed bs) <= length (split carrier))%nat)
    by (unfold len in Hcap; lia).
  split.
  - intros Hfree. apply scan_weave; [apply marker_freeb_true|]; assumption.
  - intros Hmark. apply marker_freeb_false in Hmark.
    destruct Hmark as (c & Hin & Hm).
    pose proof (scan_bits_marker carrier c Hin Hm) as Hpos.
    pose proof (scan_weave_length carrier (packed bs) Hlen) as Hl.
    split; [lia|]. intros Heq. rewrite Heq in Hl. lia.
Qed.

Lemma scan_recovers_embedded_bits_witness :
  scan_bits (value (encode (carrier_x 25) str_Hi))
  = value (_message_to_binary (str_Hi ++ [EOT_CHAR]))
  /\ scan_bits (value (encode (ONE_BIT :: carrier_x 25) str_Hi))
     <> value (_message_to_binary (str_Hi ++ [EOT_CHAR])).
Proof.
  split.
  - destruct (scan_recovers_embedded_bits (carrier_x 25) str_Hi) as (H & _);
      [reflexivity|].
    apply H. reflexivity.
  - destruct (scan_recovers_embedded_bits (ONE_BIT :: carrier_x 25) str_Hi)
      as (_ & H); [reflexivity|].
    apply H. reflexivity.
Defined.

(** * Further properties of the codec *)

(** ** Groundwork *)

(** In UTF-8 the byte 0x04 only encodes the character U+0004. *)
Lemma utf8_encode_char_sentinel (c : char) (bs : bytes) :
  utf8_encode_char c = Some bs -> (In 0x04 bs <-> c = EOT_CHAR).
Proof.
  intros H. apply utf8_encode_char_cases in H. unfold EOT_CHAR.
  destruct H as [[Hc ->]|[[Hc ->]|[(Hc & Hs & ->)|[Hc ->]]]]; cbn [In]; split;
    intros Hin; try (exfalso; zarith);
    repeat (destruct Hin as [Hin|Hin]; try (exfalso; zarith)); auto.
Qed.

Lemma utf8_encode_sentinel (s : str) (bs : bytes) :
  utf8_encode s = Some bs -> (In 0x04 bs <-> In EOT_CHAR s).
Proof.
  revert bs. induction s as [|c s IH]; intros bs H.
  - injection H as <-. reflexivity.
  - apply utf8_encode_cons_inv in H. destruct H as (b & bs' & Hc & Hs & ->).
    rewrite in_app_iff, (utf8_encode_char_sentinel c b Hc), (IH bs' Hs).
    cbn [In]. intuition congruence.
Qed.

(** The bits of a byte sequence determine it. *)
Lemma pack_injective (bs1 bs2 : bytes) :
  byte_values bs1 -> byte_values bs2 ->
  flat_map format_08b bs1 = flat_map format_08b bs2 -> bs1 = bs2.
Proof.
  intros H1 H2 Heq.
  assert (G : forall bs, byte_values bs ->
                         map int2 (groups (flat_map format_08b bs)) = bs).
  { intros bs Hbs. pose proof (groups_pack bs [] Hbs) as G.
    rewrite app_nil_r in G. rewrite G. apply app_nil_r. }
  rewrite <- (G bs1 H1), <- (G bs2 H2), Heq. reflexivity.
Qed.

Lemma utf8_encode_injective (s1 s2 : str) (bs : bytes) :
  utf8_encode s1 = Some bs -> utf8_encode s2 = Some bs -> s1 = s2.
Proof.
  intros H1 H2.
  rewrite <- (utf8_decode_encode s1 bs H1), <- (utf8_decode_encode s2 bs H2).
  reflexivity.
Qed.

(** A character fails to encode exactly when it is a surrogate or not a
    code point. *)
Lemma utf8_encode_char_none (c : char) :
  utf8_encode_char c = None <-> is_code_point c = false \/ is_surrogate c = true.
Proof.
  unfold utf8_encode_char, is_code_point, is_surrogate.
  destruct (Z.ltb_spec c 0); destruct (Z.ltb_spec c 0x80);
    destruct (Z.ltb_spec c 0x800); destruct (Z.ltb_spec c 0x10000);
    destruct (Z.leb_spec c 0x10FFFF); destruct (Z.leb_spec 0 c);
    destruct (Z.leb_spec 0xD800 c); destruct (Z.leb_spec c 0xDFFF);
    cbn [andb]; try lia; split; intros Hbad;
    try discriminate; try reflexivity; auto;
    destruct Hbad; discriminate.
Qed.

Lemma utf8_encode_none (s : str) :
  utf8_encode s = None
  <-> exists c, In c s /\ (is_code_point c = false \/ is_surrogate c = true).
Proof.
  induction s as [|c s IH]; cbn [utf8_encode].
  - split; [discriminate|]. intros (c & [] & _).
  - destruct (utf8_encode_char c) as [b|] eqn:Hc.
    + destruct (utf8_encode s) as [bs|] eqn:Hs.
      * split; [discriminate|]. intros (x & [<-|Hx] & Hbad).
        -- apply utf8_encode_char_none in Hbad. congruence.
        -- assert (@None bytes = None) as Hn by reflexivity.
           destruct IH as [_ IH]. discriminate IH. eauto.
      * split; [|reflexivity]. intros _.
        destruct IH as [IH _]. destruct (IH eq_refl) as (x & Hx & Hbad).
        exists x. split; [right|]; assumption.
    + split; [|reflexivity]. intros _. exists c. split; [left; reflexivity|].
      apply utf8_encode_char_none. assumption.
Qed.

(** The tokens of a text are one more than its spaces. *)
Lemma split_count (s : str) : length (split s) = S (spaces s).
Proof.
  unfold spaces. induction s as [|c s IH]; [reflexivity|].
  cbn [split count_occ]. destruct (Z.eqb_spec c SPACE) as [->|Hne].
  - destruct (Z.eq_dec SPACE SPACE); [|congruence]. cbn [length]. rewrite IH.
    reflexivity.
  - destruct (Z.eq_dec c SPACE); [congruence|].
    pose proof (split_nonempty s).
    destruct (split s) as [|w ws]; [congruence|]. exact IH.
Qed.

Lemma join_length (ws : list str) :
  ws <> [] ->
  (length (join ws) + 1 = length (concat ws) + length ws)%nat.
Proof.
  induction ws as [|w ws IH]; intros Hne; [congruence|].
  cbn [join concat length]. destruct ws as [|w' ws].
  - cbn [concat length]. rewrite length_app. cbn [length]. lia.
  - rewrite !length_app. cbn [length].
    specialize (IH ltac:(discriminate)). cbn [length] in IH. lia.
Qed.

Lemma interleave_lengths (ws : list str) (bits : bitstr) :
  (length bits <= length ws)%nat ->
  length (interleave ws (map (fun d => [marker_of d]) bits))
  = (length ws + length bits)%nat
  /\ length (concat (interleave ws (map (fun d => [marker_of d]) bits)))
     = (length (concat ws) + length bits)%nat.
Proof.
  revert bits. induction ws as [|w ws IH]; intros bits Hlen.
  - destruct bits; [split; reflexivity|simpl in Hlen; lia].
  - destruct bits as [|d bits]; cbn [map interleave].
    + cbn [length]. split; lia.
    + cbn [length] in Hlen. destruct (IH bits ltac:(lia)) as [IH1 IH2].
      cbn [concat length]. rewrite !length_app. cbn [length]. split; lia.
Qed.

Lemma marker_of_injective (d1 d2 : bit) : marker_of d1 = marker_of d2 -> d1 = d2.
Proof. destruct d1, d2; intros H; try reflexivity; discriminate. Qed.

(** With the tokens fixed, the interleaved list determines the bits. *)
Lemma interleave_injective (ws : list str) (bits1 bits2 : bitstr) :
  (length bits1 <= length ws)%nat -> (length bits2 <= length ws)%nat ->
  interleave ws (map (fun d => [marker_of d]) bits1)
  = interleave ws (map (fun d => [marker_of d]) bits2) ->
  bits1 = bits2.
Proof.
  intros H1 H2 Heq.
  revert bits1 bits2 H1 H2 Heq.
  induction ws as [|w ws IH]; intros bits1 bits2 H1 H2 Heq.
  - destruct bits1, bits2; simpl in *; try lia. reflexivity.
  - destruct bits1 as [|d1 bits1], bits2 as [|d2 bits2];
      cbn [map interleave length] in *.
    + reflexivity.
    + exfalso. apply (f_equal (@length str)) in Heq. cbn [length] in Heq.
      destruct (interleave_lengths ws bits2 ltac:(lia)) as [Hl _].
      rewrite Hl in Heq. lia.
    + exfalso. apply (f_equal (@length str)) in Heq. cbn [length] in Heq.
      destruct (interleave_lengths ws bits1 ltac:(lia)) as [Hl _].
      rewrite Hl in Heq. lia.
    + injection Heq as Hd Hrest. apply marker_of_injective in Hd. subst d2.
      f_equal. apply IH; [lia|lia|assumption].
Qed.

(** ** The five outcomes of [encode] *)

Lemma encode_cases (carrier secret : str) :
  (carrier = []
   /\ encode carrier secret = ([Carrier_text_cannot_be_empty], []))
  \/ (carrier <> [] /\ secret = []
      /\ encode carrier secret = ([Secret_message_cannot_be_empty], []))
  \/ (carrier <> [] /\ secret <> [] /\ utf8_encode secret = None
      /\ encode carrier secret
         = ([Error_converting_message_to_binary;
             Could_not_convert_secret_message], []))
  \/ (exists bs,
        carrier <> [] /\ secret <> [] /\ utf8_encode secret = Some bs
        /\ len (packed bs) > len (split carrier) - 1
        /\ encode carrier secret
           = ([Carrier_text_is_not_long_enough;
               Carrier_capacity (len (split carrier) - 1);
               Secret_message_size (len (packed bs))], []))
  \/ (exists bs,
        carrier <> [] /\ secret <> [] /\ utf8_encode secret = Some bs
        /\ len (packed bs) <= len (split carrier) - 1
        /\ encode carrier secret
           = ([Successfully_converted (len (packed bs));
               Bit_slots_available (len (split carrier) - 1)],
              join (weave_loop 0 (split carrier) (packed bs)))).
Proof.
  destruct carrier as [|c carrier]; [left; split; reflexivity|].
  destruct secret as [|x secret];
    [right; left; repeat split; discriminate|].
  assert (Hc : c :: carrier <> []) by discriminate.
  assert (Hs : x :: secret <> []) by discriminate.
  destruct (utf8_encode (x :: secret)) as [bs|] eqn:Hbs.
  - destruct (Z.le_gt_cases (len (packed bs)) (len (split (c :: carrier)) - 1))
      as [Hcap|Hcap].
    + do 4 right. exists bs. repeat split; try assumption.
      apply encode_success; assumption.
    + do 3 right. left. exists bs. repeat split; try assumption; [lia|].
      apply encode_insufficient; [assumption..|lia].
  - do 2 right. left. repeat split; try assumption.
    unfold encode. cbn [py_not].
    rewrite (message_to_binary_eot_fail _ Hbs). reflexivity.
Qed.

Lemma join_two_nonempty (ws : list str) : (2 <= length ws)%nat -> join ws <> [].
Proof.
  destruct ws as [|w [|w' ws]]; cbn [length]; try lia. intros _.
  cbn [join]. destruct w; discriminate.
Qed.

Lemma weave_loop_length_ge (i : nat) (ws : list str) (bits : bitstr) :
  (length ws <= length (weave_loop i ws bits))%nat.
Proof.
  revert i. induction ws as [|w ws IH]; intros i; [reflexivity|].
  cbn [weave_loop]. destruct (nth_error bits i); cbn [length];
    specialize (IH (S i)); lia.
Qed.

(** X1: [encode] returns the empty string exactly when it printed an
    error: a caller that tests the result for emptiness, as [main] does,
    tells failure from success. *)
Theorem encode_empty_iff_error (carrier secret : str) :
  value (encode carrier secret) = [] <-> no_error (encode carrier secret) = false.
Proof.
  destruct (encode_cases carrier secret)
    as [(_ & ->)|[(_ & _ & ->)|[(_ & _ & _ & ->)|[(bs & _ & _ & _ & _ & ->)
       |(bs & Hc & Hs & Hbs & Hcap & ->)]]]];
    try (split; reflexivity).
  cbn [value snd]. split; [|discriminate]. intros Hnil. exfalso.
  apply (join_two_nonempty (weave_loop 0 (split carrier) (packed bs)));
    [|assumption].
  pose proof (weave_loop_length_ge 0 (split carrier) (packed bs)).
  pose proof (packed_length bs (utf8_encode_bytes secret bs Hbs)).
  unfold len in Hcap. lia.
Qed.

(** X2: the capacity of a carrier is the number of its space characters:
    [encode] succeeds exactly when the secret is not empty, can be encoded
    as UTF-8, and eight times its byte length plus one (the sentinel) is at
    most the number of spaces of the carrier. *)
Theorem encode_succeeds_iff (carrier secret : str) :
  no_error (encode carrier secret) = true
  <-> secret <> []
      /\ exists bs, utf8_encode secret = Some bs
                    /\ (8 * (length bs + 1) <= spaces carrier)%nat.
Proof.
  split.
  - intros Hok. destruct (encode_no_error_inv carrier secret Hok)
      as (bs & Hc & Hs & Hbs & Hcap).
    split; [assumption|]. exists bs. split; [assumption|].
    pose proof (packed_length bs (utf8_encode_bytes secret bs Hbs)).
    pose proof (split_count carrier). unfold len in Hcap. lia.
  - intros (Hs & bs & Hbs & Hcap).
    pose proof (packed_length bs (utf8_encode_bytes secret bs Hbs)) as Hl.
    pose proof (split_count carrier) as Hn.
    assert (Hc : carrier <> []).
    { intros ->. cbn in Hcap. lia. }
    rewrite (encode_success carrier secret bs Hc Hs Hbs);
      [reflexivity|unfold len; lia].
Qed.

(** X3: every embedded bit costs two characters, the marker and the space
    that joins it: on success the stego text is [16 * (bytes + 1)]
    characters longer than the carrier. *)
Theorem stego_length (carrier secret : str) (bs : bytes) :
  no_error (encode carrier secret) = true -> utf8_encode secret = Some bs ->
  length (value (encode carrier secret))
  = (length carrier + 16 * (length bs + 1))%nat.
Proof.
  intros Hok Hbs. destruct (encode_no_error_inv carrier secret Hok)
    as (bs' & Hc & Hs & Hbs' & Hcap).
  assert (bs' = bs) as -> by congruence.
  rewrite (encode_success carrier secret bs Hc Hs Hbs Hcap). cbn [value snd].
  rewrite weave_loop_interleave. cbn [skipn].
  pose proof (packed_length bs (utf8_encode_bytes secret bs Hbs)) as Hl.
  assert (Hle : (length (packed bs) <= length (split carrier))%nat)
    by (unfold len in Hcap; lia).
  destruct (interleave_lengths (split carrier) (packed bs) Hle) as [L1 L2].
  pose proof (join_length
                (interleave (split carrier)
                            (map (fun d => [marker_of d]) (packed bs)))
                (interleave_nonempty _ _ (split_nonempty carrier))) as J1.
  pose proof (join_length (split carrier) (split_nonempty carrier)) as J2.
  rewrite join_split in J2. lia.
Qed.

Lemma stego_length_witness :
  length (value (encode (carrier_x 25) str_Hi))
  = (length (carrier_x 25) + 16 * (length [72; 105] + 1))%nat.
Proof.
  apply (stego_length (carrier_x 25) str_Hi [72; 105]); reflexivity.
Defined.

Lemma visible_encode_witness :
  visible (value (encode (carrier_x 17) str_A))
  = join (interleave (split (carrier_x 17)) (repeat [] (length (packed [65])))).
Proof.
  apply (visible_encode (carrier_x 17) str_A [65]); reflexivity.
Defined.

(** ** What [decode] reads *)

Lemma scan_bits_markers_only (s : str) :
  scan_bits (filter is_marker s) = scan_bits s.
Proof.
  rewrite !scan_bits_flat_map. induction s as [|c s IH]; [reflexivity|].
  cbn [filter flat_map]. destruct (is_marker c) eqn:Hc.
  - cbn [flat_map]. rewrite IH. reflexivity.
  - rewrite IH. pose proof (marker_bits_length c) as Hl. rewrite Hc in Hl.
    destruct (marker_bits c); [reflexivity|discriminate].
Qed.

(** The value of [decode] is that of unpacking the scanned bits. *)
Lemma decode_value (text : str) :
  value (decode text) = value (_binary_to_message (scan_bits text)).
Proof.
  unfold decode. destruct text as [|c text]; [reflexivity|]. cbn [py_not].
  destruct (scan_bits (c :: text)) as [|d bits] eqn:Hscan; [reflexivity|].
  cbn [py_not]. rewrite bind_print.
  unfold bind at 1. cbn [print].
  destruct (_binary_to_message (d :: bits)). reflexivity.
Qed.

(** X5: [decode] reads the marker characters and nothing else: two texts
    with the same markers in the same order decode to the same message,
    whatever their other characters are. *)
Theorem decode_reads_markers_only (text text' : str) :
  filter is_marker text' = filter is_marker text ->
  value (decode text') = value (decode text).
Proof.
  intros H. rewrite !decode_value.
  rewrite <- (scan_bits_markers_only text'), <- (scan_bits_markers_only text), H.
  reflexivity.
Qed.

Lemma decode_reads_markers_only_witness :
  value (decode [120; ZERO_BIT; SPACE; ONE_BIT])
  = value (decode [ZERO_BIT; ONE_BIT; 121]).
Proof.
  apply decode_reads_markers_only. reflexivity.
Defined.

(** The value that [decode] returns on a text whose scan starts with the
    packed bits of sentinel-free bytes. *)
Lemma decode_value_packed (text : str) (m : str) (bs : bytes) (rest : bitstr) :
  utf8_encode m = Some bs -> ~ In EOT_CHAR m ->
  scan_bits text = packed bs ++ rest ->
  value (decode text) = m.
Proof.
  intros Hbs Hnot Hscan. rewrite decode_value, Hscan, binary_to_message_eq.
  cbn [ret value snd]. unfold packed.
  rewrite unpack_pack_sentinel.
  - apply (utf8_decode_encode m bs Hbs).
  - apply (utf8_encode_bytes m bs Hbs).
  - rewrite (utf8_encode_sentinel m bs Hbs). assumption.
Qed.

(** X6: the message survives text around the stego text: before it any
    marker-free text, after it any text at all (markers included), since
    unpacking stops at the sentinel. *)
Theorem decode_ignores_surrounding_text
    (before carrier m after : str) (bs : bytes) :
  m <> [] -> utf8_encode m = Some bs -> ~ In EOT_CHAR m ->
  marker_freeb before = true -> marker_freeb carrier = true ->
  len (packed bs) <= len (split carrier) - 1 ->
  value (decode (before ++ value (encode carrier m) ++ after)) = m.
Proof.
  intros Hm Hbs Hnot Hbefore Hfree Hcap.
  apply (decode_value_packed _ m bs (scan_bits after) Hbs Hnot).
  pose proof (carrier_with_capacity_nonempty carrier bs Hcap) as Hc.
  rewrite (encode_success carrier m bs Hc Hm Hbs Hcap). cbn [value snd].
  rewrite !scan_bits_app.
  rewrite (scan_bits_marker_free before (marker_freeb_true _ Hbefore)).
  rewrite scan_weave;
    [reflexivity|apply marker_freeb_true; assumption|unfold len in Hcap; lia].
Qed.

Lemma decode_ignores_surrounding_text_witness :
  value (decode (carrier_10 ++ value (encode (carrier_x 25) str_Hi)
                 ++ [ONE_BIT; 33; ZERO_BIT]))
  = str_Hi.
Proof.
  apply (decode_ignores_surrounding_text carrier_10 (carrier_x 25) str_Hi
           [ONE_BIT; 33; ZERO_BIT] [72; 105]).
  - discriminate.
  - reflexivity.
  - intros [H|[H|[]]]; discriminate.
  - reflexivity.
  - reflexivity.
  - vm_compute. discriminate.
Defined.

(** X7: a secret that contains the character U+0004 is cut there: what
    comes back is the part before its first U+0004. *)
Theorem sentinel_in_secret_truncates (carrier m1 m2 : str) (b1 b2 : bytes) :
  utf8_encode m1 = Some b1 -> utf8_encode m2 = Some b2 ->
  ~ In EOT_CHAR m1 -> marker_freeb carrier = true ->
  len (packed (b1 ++ 0x04 :: b2)) <= len (split carrier) - 1 ->
  value (decode (value (encode carrier (m1 ++ EOT_CHAR :: m2)))) = m1.
Proof.
  intros H1 H2 Hnot Hfree Hcap.
  assert (Hbs : utf8_encode (m1 ++ EOT_CHAR :: m2) = Some (b1 ++ 0x04 :: b2)).
  { apply utf8_encode_app; [assumption|].
    change (EOT_CHAR :: m2) with ([EOT_CHAR] ++ m2).
    change (0x04 :: b2) with ([0x04] ++ b2).
    apply utf8_encode_app; [reflexivity|assumption]. }
  apply (decode_value_packed _ m1 b1
           (flat_map format_08b (b2 ++ [0x04])) H1 Hnot).
  pose proof (carrier_with_capacity_nonempty carrier _ Hcap) as Hc.
  rewrite (encode_success carrier (m1 ++ EOT_CHAR :: m2) (b1 ++ 0x04 :: b2)
             Hc ltac:(destruct m1; discriminate) Hbs Hcap).
  cbn [value snd].
  rewrite scan_weave;
    [|apply marker_freeb_true; assumption|unfold len in Hcap; lia].
  unfold packed. rewrite <- flat_map_app. f_equal.
  rewrite <- !app_assoc. reflexivity.
Qed.

Lemma sentinel_in_secret_truncates_witness :
  value (decode (value (encode (carrier_x 33) [72; EOT_CHAR; 105]))) = [72].
Proof.
  apply (sentinel_in_secret_truncates (carrier_x 33) [72] [105] [72] [105]).
  - reflexivity.
  - reflexivity.
  - intros [H|[]]. discriminate.
  - reflexivity.
  - vm_compute. discriminate.
Defined.

(** X8: [_binary_to_message] undoes [_message_to_binary] on every message
    that can be encoded and has no U+0004, without a sentinel at the end
    and without printing. *)
Theorem binary_message_roundtrip (m : str) (bs : bytes) :
  utf8_encode m = Some bs -> ~ In EOT_CHAR m ->
  _binary_to_message (value (_message_to_binary m)) = ([], m).
Proof.
  intros Hbs Hnot. unfold _message_to_binary. rewrite Hbs. cbn [ret value snd].
  rewrite binary_to_message_eq.
  rewrite <- (app_nil_r (flat_map format_08b bs)).
  rewrite unpack_pack_tail.
  - rewrite (utf8_decode_encode m bs Hbs). reflexivity.
  - apply (utf8_encode_bytes m bs Hbs).
  - rewrite (utf8_encode_sentinel m bs Hbs). assumption.
  - simpl. lia.
Qed.

Lemma binary_message_roundtrip_witness :
  _binary_to_message (value (_message_to_binary [72; 0x20AC; 0x1F600]))
  = ([], [72; 0x20AC; 0x1F600]).
Proof.
  apply (binary_message_roundtrip [72; 0x20AC; 0x1F600]
           [72; 226; 130; 172; 240; 159; 152; 128]).
  - reflexivity.
  - intros [H|[H|[H|[]]]]; discriminate.
Defined.

(** ** What comes out of [decode] *)

Lemma subseq_In {A : Type} (l1 l2 : list A) (x : A) :
  subseq l1 l2 -> In x l1 -> In x l2.
Proof.
  induction 1 as [|y l1 l2 _ IH|y l1 l2 _ IH]; intros Hin.
  - exact Hin.
  - destruct Hin as [->|Hin]; [left; reflexivity|right; auto].
  - right. auto.
Qed.

Lemma until_sentinel_no_sentinel (bs : list Z) : ~ In 0x04 (until_sentinel bs).
Proof.
  induction bs as [|b bs IH]; cbn [until_sentinel]; [intros []|].
  destruct (Z.eqb_spec b 4) as [_|Hne]; [intros []|].
  intros [H|H]; [congruence|exact (IH H)].
Qed.

(** X9: whatever the text, the message that [decode] returns is a
    well-formed string without the end marker: each of its characters is a
    code point, not a surrogate, and not U+0004. *)
Theorem decoded_message_is_well_formed (text : str) :
  Forall (fun c => is_code_point c = true /\ is_surrogate c = false
                   /\ c <> EOT_CHAR)
         (value (decode text)).
Proof.
  rewrite decode_value, binary_to_message_eq. cbn [ret value snd].
  set (collected := unpack_spec (scan_bits text)).
  assert (Hr : byte_values collected)
    by (subst collected; rewrite <- byte_list_of_spec; apply byte_list_of_range).
  destruct (utf8_decode_ignore_drops (length collected) collected
              (Nat.le_refl _) Hr) as (enc & Henc & Hsub).
  apply Forall_forall. intros c Hc.
  assert (Hgood : ~ (is_code_point c = false \/ is_surrogate c = true)).
  { intros Hbad.
    assert (utf8_encode (utf8_decode_ignore collected) = None) as Hnone
      by (apply utf8_encode_none; exists c; split; assumption).
    congruence. }
  repeat split.
  - destruct (is_code_point c); [reflexivity|]. exfalso. apply Hgood. left. reflexivity.
  - destruct (is_surrogate c); [|reflexivity]. exfalso. apply Hgood. right. reflexivity.
  - intros ->. apply (utf8_encode_sentinel _ enc Henc) in Hc.
    apply (subseq_In _ _ _ Hsub) in Hc.
    exact (until_sentinel_no_sentinel _ Hc).
Qed.

(** ** What [encode] never does *)

Lemma weave_nonempty (carrier : str) (bs : bytes) :
  byte_values bs -> len (packed bs) <= len (split carrier) - 1 ->
  join (weave_loop 0 (split carrier) (packed bs)) <> [].
Proof.
  intros Hr Hcap. apply join_two_nonempty.
  pose proof (weave_loop_length_ge 0 (split carrier) (packed bs)).
  pose proof (packed_length bs Hr). unfold len in Hcap. lia.
Qed.

(** X10: on one carrier two secrets never give the same stego text: if
    [encode] succeeds on [secret1] and returns the same text on [secret2],
    the secrets are equal. *)
Theorem encode_injective_in_secret (carrier secret1 secret2 : str) :
  no_error (encode carrier secret1) = true ->
  value (encode carrier secret1) = value (encode carrier secret2) ->
  secret1 = secret2.
Proof.
  intros Hok Heq. destruct (encode_no_error_inv carrier secret1 Hok)
    as (bs1 & Hc & Hs1 & Hbs1 & Hcap1).
  pose proof (utf8_encode_bytes secret1 bs1 Hbs1) as Hr1.
  rewrite (encode_success carrier secret1 bs1 Hc Hs1 Hbs1 Hcap1) in Heq.
  cbn [value snd] in Heq.
  pose proof (weave_nonempty carrier bs1 Hr1 Hcap1) as Hne.
  destruct (encode_cases carrier secret2)
    as [(_ & E)|[(_ & _ & E)|[(_ & _ & _ & E)|[(bs & _ & _ & _ & _ & E)
       |(bs2 & _ & Hs2 & Hbs2 & Hcap2 & E)]]]];
    rewrite E in Heq; cbn [value snd] in Heq; try congruence.
  pose proof (utf8_encode_bytes secret2 bs2 Hbs2) as Hr2.
  apply (f_equal split) in Heq.
  rewrite !weave_loop_interleave in Heq. cbn [skipn] in Heq.
  rewrite !split_join in Heq
    by (try (apply interleave_nonempty, split_nonempty);
        apply interleave_space_free, split_space_free).
  apply interleave_injective in Heq;
    [|unfold len in Hcap1; lia|unfold len in Hcap2; lia].
  unfold packed in Heq. apply pack_injective in Heq;
    [|apply Forall_app; split; [assumption|repeat constructor; lia]..].
  apply app_inj_tail in Heq. destruct Heq as [-> _].
  exact (utf8_encode_injective secret1 secret2 bs2 Hbs1 Hbs2).
Qed.

Lemma encode_injective_in_secret_witness :
  value (encode (carrier_x 25) str_Hi) = value (encode (carrier_x 25) [72; 105])
  /\ str_Hi = [72; 105].
Proof.
  split; [reflexivity|].
  apply (encode_injective_in_secret (carrier_x 25) str_Hi [72; 105]);
    reflexivity.
Defined.

(** X11: with both texts non-empty, [encode] reports that it could not
    convert the secret exactly when the secret contains a surrogate code
    point, the only characters that UTF-8 does not encode. *)
Theorem conversion_fails_iff_surrogate (carrier secret : str) :
  carrier <> [] -> secret <> [] -> forallb is_code_point secret = true ->
  (In Could_not_convert_secret_message (printed (encode carrier secret))
   <-> existsb is_surrogate secret = true).
Proof.
  intros Hc Hs Hcp. split.
  - intros Hin.
    destruct (encode_cases carrier secret)
      as [(Hc' & _)|[(_ & Hs' & _)|[(_ & _ & Hnone & _)
         |[(bs & _ & _ & _ & _ & E)|(bs & _ & _ & _ & _ & E)]]]];
      try congruence.
    + apply utf8_encode_none in Hnone. destruct Hnone as (c & Hin' & Hbad).
      apply existsb_exists. exists c. split; [assumption|].
      destruct Hbad as [Hbad|Hbad]; [|assumption].
      rewrite forallb_forall in Hcp. rewrite (Hcp c Hin') in Hbad. discriminate.
    + rewrite E in Hin. cbn [printed fst] in Hin.
      destruct Hin as [H|[H|[H|[]]]]; discriminate.
    + rewrite E in Hin. cbn [printed fst] in Hin.
      destruct Hin as [H|[H|[]]]; discriminate.
  - intros Hex. apply existsb_exists in Hex. destruct Hex as (c & Hin & Hsur).
    assert (Hnone : utf8_encode secret = None)
      by (apply utf8_encode_none; exists c; split; [assumption|right; assumption]).
    destruct (encode_cases carrier secret)
      as [(Hc' & _)|[(_ & Hs' & _)|[(_ & _ & _ & E)
         |[(bs & _ & _ & Hbs & _)|(bs & _ & _ & Hbs & _)]]]];
      try congruence.
    rewrite E. right. left. reflexivity.
Qed.

Lemma conversion_fails_iff_surrogate_witness :
  In Could_not_convert_secret_message
     (printed (encode carrier_10 [72; 0xD800])).
Proof.
  apply (conversion_fails_iff_surrogate carrier_10 [72; 0xD800]).
  - discriminate.
  - discriminate.
  - reflexivity.
  - reflexivity.
Defined.

Lemma subseq_app {A : Type} (a b c d : list A) :
  subseq a b -> subseq c d -> subseq (a ++ c) (b ++ d).
Proof.
  induction 1 as [|x l1 l2 _ IH|x l1 l2 _ IH]; intros H; cbn [app];
    [assumption|constructor; auto|constructor; auto].
Qed.

Lemma subseq_prepend {A : Type} (p a b : list A) :
  subseq a b -> subseq a (p ++ b).
Proof.
  intros H. induction p as [|x p IH]; [assumption|]. cbn [app].
  constructor. assumption.
Qed.

Lemma subseq_join_interleave (ws ms : list str) :
  subseq (join ws) (join (interleave ws ms)).
Proof.
  revert ms. induction ws as [|w ws IH]; intros ms; [constructor|].
  destruct ms as [|m ms]; cbn [interleave]; [apply subseq_refl|].
  destruct ws as [|w' ws].
  - cbn [interleave join]. rewrite <- (app_nil_r w) at 1.
    apply subseq_app; [apply subseq_refl|apply subseq_nil_l].
  - specialize (IH ms).
    assert (Hne : interleave (w' :: ws) ms <> [])
      by (apply interleave_nonempty; discriminate).
    change (join (w :: w' :: ws)) with (w ++ SPACE :: join (w' :: ws)).
    destruct (interleave (w' :: ws) ms) as [|i rest] eqn:Hi; [congruence|].
    change (join (w :: m :: i :: rest))
      with (w ++ SPACE :: (m ++ SPACE :: join (i :: rest))).
    apply subseq_app; [apply subseq_refl|]. constructor.
    apply subseq_prepend. constructor. assumption.
Qed.

(** X12: [encode] only inserts: on success the carrier is still there in
    the stego text, character by character and in order, with nothing
    removed, changed or moved. *)
Theorem encode_keeps_carrier_characters (carrier secret : str) :
  no_error (encode carrier secret) = true ->
  subseq carrier (value (encode carrier secret)).
Proof.
  intros Hok. destruct (encode_no_error_inv carrier secret Hok)
    as (bs & Hc & Hs & Hbs & Hcap).
  rewrite (encode_success carrier secret bs Hc Hs Hbs Hcap). cbn [value snd].
  rewrite weave_loop_interleave. cbn [skipn].
  rewrite <- (join_split carrier) at 1. apply subseq_join_interleave.
Qed.

Lemma encode_keeps_carrier_characters_witness :
  subseq (carrier_x 17) (value (encode (carrier_x 17) str_A)).
Proof.
  apply (encode_keeps_carrier_characters (carrier_x 17) str_A). reflexivity.
Defined.
